(** * A contact book over a JSON file: the record store and its dispatcher

    Shallow embedding of [models.ts] (class [ContactsCollection]) and of the
    controller ([ContactsController.processOptions]), followed by the
    properties of the store that its specification lists.

    Modelling conventions.
    - The in-memory field [this.contacts] and the outside world (backing
      file, outcome of the next writes, console) are threaded explicitly
      through a state-and-exception monad [M].  An [await] on a promise is a
      sequencing point; nothing else runs in between.
    - A stored [id] is an integer-valued double, given by the integer ([Z]) it
      denotes.  Comparison and [Math.max] are exact on doubles; the one
      addition of the program, [maxId + 1], is rounded to the nearest double
      ([to_double]), so it is exact up to 2^53 and no further.  A [number]
      that is passed as an argument may also be [NaN], which is what
      [Number("abc")] hands to the controller.
    - A string is a sequence of code units in the range U+0000..U+00FF.
    - [jsonfile.readFile] and [jsonfile.writeFile] belong to a library
      outside the repository: the file is represented by the JSON value it
      parses to (or by the exception reading it raises), so that
      [JSON.parse (JSON.stringify v)] is [v] by construction.
    - A write that fails leaves the file in the state the environment says:
      [fs.writeFile] truncates the file before it writes, so the file may be
      empty, partial, or as before.
    - The store is first described with contacts as values, which is what a
      caller sees who passes a new object to [addContact], as the dispatcher
      does.  The part [Refs] describes [getAllContacts], [getOneById] and
      [addContact] with object references, where sharing between the
      caller's objects, the returned arrays and the store is visible. *)

From Stdlib Require Import ZArith String Ascii DecimalString Sorted.
From stdpp Require Import base option list strings gmap.

Open Scope Z_scope.

(** ** JavaScript values *)

Inductive number :=
| NaN
| Num (z : Z).

Inductive value :=
| VUndefined
| VNull
| VBool (b : bool)
| VNumber (n : number)
| VString (s : string).

#[global] Instance number_eq_dec : EqDecision number.
Proof. solve_decision. Defined.

#[global] Instance value_eq_dec : EqDecision value.
Proof. solve_decision. Defined.

(** [a === b] on numbers: [NaN] is equal to nothing, itself included. *)
Definition strict_eq (a b : number) : bool :=
  match a, b with
  | Num x, Num y => bool_decide (x = y)
  | _, _ => false
  end.

(** A template literal [`${n}`], for integers of magnitude up to 2^53; above,
    JavaScript prints the shortest digits that read back as the same
    double, which this function does not do. *)
Definition show (n : number) : string :=
  match n with
  | NaN => "NaN"
  | Num z => NilZero.string_of_int (Z.to_int z)
  end.

(** An exception object: its constructor name, its [code] property (set by
    Node's file-system errors only) and its message. *)
Record exn := { ename : string; code : option string; message : string }.

#[global] Instance exn_eq_dec : EqDecision exn.
Proof. solve_decision. Defined.

(** [new Error(msg)] *)
Definition Error (msg : string) : exn :=
  {| ename := "Error"; code := None; message := msg |}.

Definition TypeError (msg : string) : exn :=
  {| ename := "TypeError"; code := None; message := msg |}.

(** What [fs] raises when the path does not exist. *)
Definition ENOENT : exn :=
  {| ename := "Error"; code := Some "ENOENT";
     message := "ENOENT: no such file or directory" |}.

(** ** Double arithmetic on integers *)

(** The double nearest to the integer [z], ties to the even significand: the
    value of a sum of doubles whose exact value is [z].  Integers up to 2^53
    in magnitude are doubles; above, the doubles are the multiples of
    [ulp], a power of two.  (Adding 1 to a double cannot overflow.) *)
Definition to_double (z : Z) : Z :=
  let a := Z.abs z in
  if a <=? 2 ^ 53 then z
  else
    let ulp := 2 ^ (Z.log2 a - 52) in
    let q := a / ulp in
    let r := a mod ulp in
    let q' :=
      if 2 * r <? ulp then q
      else if ulp <? 2 * r then q + 1
      else if Z.even q then q
      else q + 1 in
    Z.sgn z * (q' * ulp).

(** ** The data model *)

(** [class Contact { id: number; name: string }] *)
Record Contact := { id : Z; name : string }.

#[global] Instance Contact_eq_dec : EqDecision Contact.
Proof. solve_decision. Defined.

(** [Partial<Contact>]: each field may be absent. *)
Record PartialContact := { id_opt : option Z; name_opt : option string }.

(** The object spread [{ ...c, ...updates }]. *)
Definition spread (c : Contact) (updates : PartialContact) : Contact :=
  {| id := default (id c) (id_opt updates);
     name := default (name c) (name_opt updates) |}.

(** ** JSON documents *)

#[warnings="-register-all"]
Inductive json :=
| JNull
| JBool (b : bool)
| JNumber (z : Z)
| JString (s : string)
| JArray (items : list json)
| JObject (fields : list (string * json)).

(** [item[key]] for a parsed item and one of the keys ["id"], ["name"]:
    [None] is [undefined]; reading a property of [null] throws. *)
Fixpoint assoc (key : string) (fields : list (string * json)) : option json :=
  match fields with
  | [] => None
  | (k, v) :: rest => if bool_decide (k = key) then Some v else assoc key rest
  end.

Definition property (key : string) (item : json) : exn + option json :=
  match item with
  | JNull =>
      inl (TypeError ("Cannot read properties of null (reading '" +:+ key +:+ "')"))
  | JObject fields => inr (assoc key fields)
  | _ => inr None
  end.

(** How [JSON.stringify] renders a contact and the contact array. *)
Definition json_of_contact (c : Contact) : json :=
  JObject [("id", JNumber (id c)); ("name", JString (name c))].

Definition json_of_contacts (cs : list Contact) : json :=
  JArray (json_of_contact <$> cs).

(** ** The world outside the store *)

(** The backing file [contacts.json], as [jsonfile.readFile] sees it. *)
Inductive backing :=
| Absent                 (* no such file: reading raises ENOENT *)
| Faulty (e : exn)       (* reading or parsing raises [e] *)
| Parsed (j : json).     (* the file parses to [j] *)

Inductive line :=
| Log (s : string)
| Warn (s : string)
| ErrorLine (s : string) (e : option exn).

(** [wfaults] schedules the outcome of the coming writes: [Some (e, leftover)]
    makes the next [writeFile] raise [e] and leave the file as [leftover] (as it
    was, empty, or cut short); [None], or an exhausted schedule, lets it
    succeed. *)
Record world := {
  file : backing;
  wfaults : list (option (exn * backing));
  console : list line
}.

(** The store instance together with the world it runs in. *)
Record state := {
  contacts : list Contact;    (* private contacts: Contact[] *)
  env : world
}.

(** ** Computations *)

(** [IllTyped]: an object was built whose field holds a value outside its
    declared TypeScript type; the typed embedding says nothing further. *)
Inductive result (A : Type) :=
| Returned (a : A)
| Thrown (e : exn)
| IllTyped.
Arguments Returned {A} a.
Arguments Thrown {A} e.
Arguments IllTyped {A}.

Definition M (A : Type) : Type := state → result A * state.

#[global] Instance M_ret : MRet M := λ A a st, (Returned a, st).

#[global] Instance M_bind : MBind M := λ A B f m st,
  match m st with
  | (Returned a, st') => f a st'
  | (Thrown e, st') => (Thrown e, st')
  | (IllTyped, st') => (IllTyped, st')
  end.

Definition throw {A} (e : exn) : M A := λ st, (Thrown e, st).

Definition ill_typed {A} : M A := λ st, (IllTyped, st).

(** [try { body } catch (error) { handler }] *)
Definition try_catch {A} (body : M A) (handler : exn → M A) : M A := λ st,
  match body st with
  | (Thrown e, st') => handler e st'
  | r => r
  end.

Definition get_contacts : M (list Contact) := λ st, (Returned (contacts st), st).

Definition set_contacts (cs : list Contact) : M unit := λ st,
  (Returned tt, {| contacts := cs; env := env st |}).

Definition print (l : line) : M unit := λ st,
  (Returned tt,
   {| contacts := contacts st;
      env := {| file := file (env st); wfaults := wfaults (env st);
                console := console (env st) ++ [l] |} |}).

(** [jsonfile.readFile(this.filePath)] *)
Definition readFile : M json := λ st,
  match file (env st) with
  | Absent => (Thrown ENOENT, st)
  | Faulty e => (Thrown e, st)
  | Parsed j => (Returned j, st)
  end.

(** [jsonfile.writeFile(this.filePath, obj, { spaces: 2 })]: the whole file is
    replaced on success; on failure it is what the failed write left. *)
Definition writeFile (j : json) : M unit := λ st,
  let w := env st in
  match wfaults w with
  | Some (e, leftover) :: later =>
      (Thrown e,
       {| contacts := contacts st;
          env := {| file := leftover; wfaults := later; console := console w |} |})
  | _ =>
      (Returned tt,
       {| contacts := contacts st;
          env := {| file := Parsed j; wfaults := tail (wfaults w);
                    console := console w |} |})
  end.

(** ** [ContactsCollection] *)

(** The objects [new Contact(item.id, item.name)] that [data.map] builds,
    before their fields are given a type. *)
Record RawContact := { raw_id : option json; raw_name : option json }.

Fixpoint map_items (items : list json) : exn + list RawContact :=
  match items with
  | [] => inr []
  | item :: rest =>
      match property "id" item with
      | inl e => inl e
      | inr i =>
          match property "name" item with
          | inl e => inl e
          | inr n =>
              match map_items rest with
              | inl e => inl e
              | inr raws => inr ({| raw_id := i; raw_name := n |} :: raws)
              end
          end
      end
  end.

Definition typed (r : RawContact) : option Contact :=
  match raw_id r, raw_name r with
  | Some (JNumber z), Some (JString s) => Some {| id := z; name := s |}
  | _, _ => None
  end.

Definition array_of_data (data : json) : M (list Contact) :=
  match data with
  | JArray items =>
      match map_items items with
      | inl e => throw e
      | inr raws =>
          match mapM typed raws with
          | Some cs => mret cs
          | None => ill_typed
          end
      end
  | _ => mret []
  end.

Definition load : M unit :=
  try_catch
    (data ← readFile;
     cs ← array_of_data data;
     set_contacts cs;;
     print (Log "Contacts loaded successfully."))
    (λ error,
       if bool_decide (code error = Some "ENOENT"%string) then
         print (Warn "contacts.json not found. Starting with an empty contact list.");;
         set_contacts []
       else
         print (ErrorLine "Error loading contacts file:" (Some error));;
         throw error).

Definition save : M unit :=
  try_catch
    (cs ← get_contacts;
     writeFile (json_of_contacts cs);;
     print (Log "Contacts saved successfully."))
    (λ error,
       print (ErrorLine "Error saving contacts file:" (Some error));;
       throw error).

(** [this.contacts.find(contact => contact.id === id)] *)
Definition getOneById (i : number) : M (option Contact) :=
  cs ← get_contacts;
  mret (find (λ contact, strict_eq (Num (id contact)) i) cs).

(** [this.contacts.reduce((max, contact) => Math.max(max, contact.id), 0) + 1] *)
Definition generateNewId : M Z :=
  cs ← get_contacts;
  let maxId := fold_left (λ max contact, Z.max max (id contact)) cs 0 in
  mret (to_double (maxId + 1)).

Definition with_id (c : Contact) (i : Z) : Contact :=
  {| id := i; name := name c |}.

(** [this.contacts.push(c)] *)
Definition push (c : Contact) : M unit :=
  cs ← get_contacts;
  set_contacts (cs ++ [c]).

(** [newContact] is the value of an object that is not yet in the
    collection; [Refs.addContact] takes the reference. *)
Definition addContact (newContact : Contact) : M unit :=
  cs ← get_contacts;
  newContact ←
    (if bool_decide (id newContact = 0) then
       i ← generateNewId; mret (with_id newContact i)
     else if existsb (λ c, bool_decide (id c = id newContact)) cs then
       print (Warn ("Contact with ID " +:+ show (Num (id newContact))
                    +:+ " already exists. Assigning a new ID."));;
       i ← generateNewId; mret (with_id newContact i)
     else mret newContact);
  push newContact;;
  save.

(** [[...this.contacts]] *)
Definition getAllContacts : M (list Contact) :=
  cs ← get_contacts;
  mret cs.

Definition not_found (i : number) : exn :=
  Error ("Contact with ID " +:+ show i +:+ " not found.").

Definition updateContact (i : number) (updates : PartialContact) : M unit :=
  cs ← get_contacts;
  match list_find (λ contact, strict_eq (Num (id contact)) i = true) cs with
  | None => throw (not_found i)
  | Some (index, contact) =>
      set_contacts (<[index := spread contact updates]> cs);;
      save
  end.

Definition deleteContact (i : number) : M unit :=
  cs ← get_contacts;
  let initialLength := length cs in
  set_contacts (filter (λ contact, strict_eq (Num (id contact)) i = false) cs);;
  cs' ← get_contacts;
  if bool_decide (length cs' = initialLength) then throw (not_found i)
  else save.

(** ** [ContactsController] *)

(** [String.prototype.trim] strips white space and line terminators; among
    the code units below U+0100 these are TAB, LF, VT, FF, CR, SP and NBSP. *)
Definition is_space (a : ascii) : bool :=
  let n := N_of_ascii a in
  bool_decide (n = 9 ∨ n = 10 ∨ n = 11 ∨ n = 12 ∨ n = 13 ∨ n = 32 ∨ n = 160)%N.

Fixpoint trimStart (s : string) : string :=
  match s with
  | EmptyString => EmptyString
  | String a rest => if is_space a then trimStart rest else s
  end.

Definition trimEnd (s : string) : string := String.rev (trimStart (String.rev s)).

Definition trim (s : string) : string := trimEnd (trimStart s).

(** [options.params]; the index signature admits further keys, which
    [processOptions] never reads. *)
Module Params.
Record t := { id : value; name : value }.
End Params.

(** [ContactsControllerOptions]; [params] is a required field. *)
Record ContactsControllerOptions := { action : value; params : Params.t }.

(** [Contact[] | Contact | void] *)
Inductive reply :=
| Listing (cs : list Contact)
| One (c : Contact)
| Undefined.

Definition init : M unit :=
  load;;
  print (Log "ContactsController initialized and data loaded.").

Definition invalid_name : exn := Error "Missing or invalid 'name' for save action.".

Definition reject_name {A} : M A :=
  print (ErrorLine "Save action requires valid 'name' in params." None);;
  throw invalid_name.

Definition processOptions (options : ContactsControllerOptions) : M reply :=
  let action := action options in
  let params := params options in
  if bool_decide (action = VString "get") then
    match Params.id params with
    | VNumber n =>
        contact ← getOneById n;
        match contact with
        | None =>
            print (Warn ("Contact with ID " +:+ show n +:+ " not found."));;
            mret Undefined
        | Some c => mret (One c)
        end
    | _ => cs ← getAllContacts; mret (Listing cs)
    end
  else if bool_decide (action = VString "save") then
    match Params.name params with
    | VString s =>
        if bool_decide (trim s = "") then reject_name
        else
          let i := match Params.id params with VNumber (Num z) => z | _ => 0 end in
          let newContact := {| id := i; name := s |} in
          addContact newContact;;
          print (Log "Contact saved successfully via controller.");;
          mret Undefined
    | _ => reject_name
    end
  else
    print (Warn "No valid action specified or action not supported.");;
    mret Undefined.

(** * Vocabulary of the properties *)

(** ** Sample worlds and stores *)

Definition quiet : world := {| file := Absent; wfaults := []; console := [] |}.

Definition unreadable : exn :=
  {| ename := "Error"; code := Some "EACCES"; message := "EACCES: permission denied" |}.

Definition sample_contacts : list Contact :=
  [ {| id := 2; name := "Bob" |}; {| id := 1; name := "Ana" |} ].

Definition sample_state : state := {| contacts := sample_contacts; env := quiet |}.

Definition two_contacts : state :=
  {| contacts := [ {| id := 1; name := "Ana" |}; {| id := 2; name := "Bob" |} ];
     env := quiet |}.

(** [new ContactsCollection()] in the world [w]. *)
Definition new_ContactsCollection (w : world) : state := {| contacts := []; env := w |}.

(** ** Ids of the in-memory sequence *)

Definition ids (st : state) : list Z := id <$> contacts st.

Definition distinct_ids (st : state) : Prop := NoDup (ids st).

(** [contact.id === i] *)
Definition has_id (i : number) (contact : Contact) : Prop :=
  strict_eq (Num (id contact)) i = true.

#[global] Instance has_id_dec i contact : Decision (has_id i contact).
Proof. unfold has_id. apply _. Defined.

(** An update that leaves the id alone: it has no [id] field, or carries the
    id the record is looked up by. *)
Definition keeps_id (i : number) (updates : PartialContact) : Prop :=
  match id_opt updates with
  | None => True
  | Some z => i = Num z
  end.

(** Sequences of mutations; a caller that catches a failure goes on with the
    state the failed call left. *)
Inductive call :=
| AddContact (newContact : Contact)
| UpdateContact (i : number) (updates : PartialContact)
| DeleteContact (i : number).

Definition perform (k : call) : M unit :=
  match k with
  | AddContact newContact => addContact newContact
  | UpdateContact i updates => updateContact i updates
  | DeleteContact i => deleteContact i
  end.

Definition run (ks : list call) (st : state) : state :=
  foldl (λ st k, (perform k st).2) st ks.

Definition id_preserving (k : call) : Prop :=
  match k with
  | UpdateContact i updates => keeps_id i updates
  | _ => True
  end.

(** ** Fresh ids *)

(** The [maxId] of [generateNewId]. *)
Definition maxId (cs : list Contact) : Z :=
  fold_left (λ max contact, Z.max max (id contact)) cs 0.

(** [m] is the greatest of [0] and the ids of [cs]. *)
Definition greatest_id (cs : list Contact) (m : Z) : Prop :=
  0 ≤ m ∧ (∀ c, c ∈ cs → id c ≤ m) ∧ (m = 0 ∨ ∃ c, c ∈ cs ∧ id c = m).

(** The guards of the two branches of [addContact] that call
    [generateNewId]. *)
Definition reaches_generateNewId (newContact : Contact) (cs : list Contact) : bool :=
  bool_decide (id newContact = 0)
  || existsb (λ c, bool_decide (id c = id newContact)) cs.

(** The record [addContact] pushes. *)
Definition stored (newContact : Contact) (cs : list Contact) : Contact :=
  if reaches_generateNewId newContact cs
  then with_id newContact (to_double (maxId cs + 1))
  else newContact.

(** The fresh id in the words of the specification: one more than the
    greatest existing id, or [1] for an empty collection. *)
Definition claimed_fresh_id (cs : list Contact) : Z :=
  match cs with
  | [] => 1
  | c :: rest => foldr (λ c' m, Z.max (id c') m) (id c) rest + 1
  end.

Definition addContact_as_claimed (newContact : Contact) (st : state) : Prop :=
  contacts (addContact newContact st).2
  = contacts st
    ++ [if decide (id newContact = 0 ∨ id newContact ∈ ids st)
        then with_id newContact (claimed_fresh_id (contacts st))
        else newContact].


(** ** Names the dispatcher refuses *)

(** Every code unit of [s] is white space. *)
Definition blank (s : string) : Prop :=
  Forall (λ a, is_space a = true) (list_ascii_of_string s).

(** A [name] parameter that is missing, not a string, or blank. *)
Definition refused_name (v : value) : Prop :=
  match v with
  | VString s => blank s
  | _ => True
  end.

(** ** Further vocabulary *)

(** The id the dispatcher hands to [new Contact]:
    [typeof params.id === 'number' && !isNaN(params.id) ? params.id : 0]. *)
Definition requested_id (v : value) : Z :=
  match v with
  | VNumber (Num z) => z
  | _ => 0
  end.

(** The parsed item [item] is an object whose [id] is the number and whose
    [name] is the string of the contact [c]; it may have other keys. *)
Definition describes (item : json) (c : Contact) : Prop :=
  ∃ fields, item = JObject fields
          ∧ assoc "id" fields = Some (JNumber (id c))
          ∧ assoc "name" fields = Some (JString (name c)).

(** The request [{ action: "get", params: {} }]. *)
Definition list_request : ContactsControllerOptions :=
  {| action := VString "get";
     params := {| Params.id := VUndefined; Params.name := VUndefined |} |}.

(** The request [{ action: "save", params: { id: NaN, name: " Eve " } }]. *)
Definition save_request : ContactsControllerOptions :=
  {| action := VString "save";
     params := {| Params.id := VNumber NaN; Params.name := VString " Eve " |} |}.

(** A world whose next write fails for lack of space and leaves an empty
    file, which does not parse. *)
Definition disk_full : exn :=
  {| ename := "Error"; code := Some "ENOSPC";
     message := "ENOSPC: no space left on device" |}.

Definition empty_file : exn :=
  {| ename := "SyntaxError"; code := None;
     message := "Unexpected end of JSON input" |}.

Definition failing_state : state :=
  {| contacts := sample_contacts;
     env := {| file := Parsed (json_of_contacts sample_contacts);
               wfaults := [Some (disk_full, Faulty empty_file)];
               console := [] |} |}.

(** A collection whose greatest id is 2^53, the first double whose successor
    is not a double. *)
Definition at_the_limit : state :=
  {| contacts := [ {| id := 2 ^ 53; name := "Ana" |} ]; env := quiet |}.

(** The greatest id of [cs] is below 2^53: the next id is computed exactly. *)
Definition exact_ids (cs : list Contact) : Prop := maxId cs < 2 ^ 53.

(** Along the calls [ks] from [st], every call starts with exact ids. *)
Fixpoint exact_run (ks : list call) (st : state) : Prop :=
  match ks with
  | [] => True
  | k :: rest => exact_ids (contacts st) ∧ exact_run rest (perform k st).2
  end.

(** A file written by hand: keys in another order, and one key too many. *)
Definition hand_written : json :=
  JArray [ JObject [("name", JString "Ana"); ("id", JNumber 7)];
           JObject [("id", JNumber 3); ("name", JString "Bob"); ("phone", JNull)] ].

(** [console.*] and [this.save()] as they act on the world alone, for a
    store whose array denotes the records [cs]. *)
Definition say (l : line) (w : world) : world :=
  env (print l {| contacts := []; env := w |}).2.

Definition save_in (cs : list Contact) (w : world) : result unit * world :=
  ((save {| contacts := cs; env := w |}).1,
   env (save {| contacts := cs; env := w |}).2).

(** The world after the first two branches of [addContact]: the second
    prints a warning. *)
Definition warned (newContact : Contact) (cs : list Contact) (w : world) : world :=
  if bool_decide (id newContact = 0) then w
  else if existsb (λ c, bool_decide (id c = id newContact)) cs then
    say (Warn ("Contact with ID " +:+ show (Num (id newContact))
               +:+ " already exists. Assigning a new ID.")) w
  else w.

(** * Contacts as references *)

(** The store holds a reference to an array, and the array holds references
    to [Contact] objects.  [[...this.contacts]] allocates a new array and
    copies the references into it; the objects are not copied. *)
Module Refs.
Abbreviation loc := positive.

Record heap := {
  objects : gmap loc Contact;       (* the Contact objects *)
  arrays : gmap loc (list loc)      (* the arrays of references to them *)
}.

(** The store instance: [this.contacts] refers to an array. *)
Record ContactsCollection := { contacts : loc }.

Definition alloc_array (elems : list loc) (h : heap) : loc * heap :=
  let a := fresh (dom (arrays h)) in
  (a, {| objects := objects h; arrays := <[a := elems]> (arrays h) |}).

(** [return [...this.contacts]] *)
Definition getAllContacts (this : ContactsCollection) (h : heap)
  : option (loc * heap) :=
  elems ← arrays h !! contacts this;
  Some (alloc_array elems h).

(** What a caller can do to an array it holds: any change of its slots
    ([a[k] = r], [a.push(r)], [a.pop()], [a.length = 0], ...) leaves it
    with some sequence [elems] of references. *)
Definition mutate_array (a : loc) (elems : list loc) (h : heap) : heap :=
  {| objects := objects h; arrays := <[a := elems]> (arrays h) |}.

(** What a caller can do to a record it reaches: assignments to its fields
    leave the object [r] with the field values of [c]. *)
Definition mutate_record (r : loc) (c : Contact) (h : heap) : heap :=
  {| objects := <[r := c]> (objects h); arrays := arrays h |}.

(** [a[k].name = s] *)
Definition assign_name (a : loc) (k : nat) (s : string) (h : heap) : option heap :=
  elems ← arrays h !! a;
  r ← elems !! k;
  c ← objects h !! r;
  Some (mutate_record r {| id := id c; name := s |} h).

(** The sequence of records an array denotes (its deep value). *)
Definition listing (a : loc) (h : heap) : option (list Contact) :=
  elems ← arrays h !! a;
  mapM (λ r, objects h !! r) elems.

(** A store holding the single contact Alice. *)
Definition alice : Contact := {| id := 1; name := "Alice" |}.

Definition sample_heap : heap :=
  {| objects := {[ 1%positive := alice ]};
     arrays := {[ 1%positive := [1%positive] ]} |}.

Definition sample_store : ContactsCollection := {| contacts := 1%positive |}.
(** The heaps after a first and after a second [getAllContacts()] on the
    sample store. *)
Definition after_first_copy : loc * heap := alloc_array [1%positive] sample_heap.

Definition after_second_copy : loc * heap :=
  alloc_array [1%positive] after_first_copy.2.

(** [return this.contacts.find(contact => contact.id === id)]: the element
    of the array, which is a reference. *)
Definition getOneById (this : ContactsCollection) (i : number) (h : heap)
  : option loc :=
  elems ← arrays h !! contacts this;
  find (λ r, match objects h !! r with
             | Some contact => strict_eq (Num (id contact)) i
             | None => false
             end) elems.

(** [this.contacts.reduce((max, contact) => Math.max(max, contact.id), 0) + 1],
    each element read through its reference. *)
Definition generateNewId (this : ContactsCollection) (h : heap) : option Z :=
  cs ← listing (contacts this) h;
  Some (to_double (fold_left (λ max contact, Z.max max (id contact)) cs 0 + 1)).

(** [newContact.id = i] *)
Definition assign_id (newContact : loc) (i : Z) (h : heap) : option heap :=
  c ← objects h !! newContact;
  Some (mutate_record newContact {| id := i; name := name c |} h).

(** [this.contacts.push(newContact)]: the store's own array gets one more
    slot, holding the reference it was given. *)
Definition push (this : ContactsCollection) (newContact : loc) (h : heap)
  : option heap :=
  elems ← arrays h !! contacts this;
  Some (mutate_array (contacts this) (elems ++ [newContact]) h).

(** [await this.save()]: writes the records the store's array denotes. *)
Definition save (this : ContactsCollection) (h : heap) (w : world)
  : option (result unit * world) :=
  cs ← listing (contacts this) h;
  Some (save_in cs w).

(** [addContact(newContact)] with [newContact] a reference: the id is
    assigned to the caller's object, and that object is pushed. *)
Definition addContact (this : ContactsCollection) (newContact : loc)
    (h : heap) (w : world) : option (result unit * heap * world) :=
  c ← objects h !! newContact;
  cs ← listing (contacts this) h;
  '(h1, w1) ←
    (if bool_decide (id c = 0) then
       i ← generateNewId this h;
       h' ← assign_id newContact i h;
       Some (h', w)
     else if existsb (λ c', bool_decide (id c' = id c)) cs then
       let w' := say (Warn ("Contact with ID " +:+ show (Num (id c))
                            +:+ " already exists. Assigning a new ID.")) w in
       i ← generateNewId this h;
       h' ← assign_id newContact i h;
       Some (h', w')
     else Some (h, w));
  h2 ← push this newContact h1;
  '(res, w2) ← save this h2 w1;
  Some (res, h2, w2).

(** The sample store and a new object [new Contact(1, "Bob")] that the
    caller holds, at the reference [2]. *)
Definition with_bob : heap :=
  mutate_record 2%positive {| id := 1; name := "Bob" |} sample_heap.
End Refs.

(** * Properties *)

Ltac step :=
  unfold mbind, M_bind, mret, M_ret, throw, get_contacts, set_contacts, print in *;
  cbn [fst snd contacts env file wfaults console] in *.

(** ** Saving *)

Lemma save_cases st :
  (∃ out, save st = (Returned tt, {| contacts := contacts st; env := out |})
          ∧ file out = Parsed (json_of_contacts (contacts st)))
  ∨ (∃ e out, save st = (Thrown e, {| contacts := contacts st; env := out |})).
Proof.
  unfold save, try_catch, writeFile. step.
  destruct (wfaults (env st)) as [|[[e leftover]|] later]; cbn; eauto.
Qed.

Lemma save_contacts st : contacts (save st).2 = contacts st.
Proof.
  destruct (save_cases st) as [(out & -> & _)|(e & out & ->)]; done.
Qed.

(** A write that is not scheduled to fail succeeds. *)
Lemma save_succeeds st :
  head (wfaults (env st)) = None ∨ head (wfaults (env st)) = Some None →
  (save st).1 = Returned tt.
Proof.
  unfold save, try_catch, writeFile. step.
  destruct (wfaults (env st)) as [|[[e leftover]|] later]; cbn; [done| |done].
  intros [?|?]; discriminate.
Qed.

(** ** What each mutation does to the in-memory sequence *)

Lemma addContact_contacts newContact st :
  contacts (addContact newContact st).2
  = contacts st ++ [stored newContact (contacts st)].
Proof.
  unfold addContact, push, generateNewId, stored, reaches_generateNewId, maxId. step.
  destruct (bool_decide (id newContact = 0)); cbn [orb].
  - step. apply save_contacts.
  - destruct (existsb _ (contacts st)); step; apply save_contacts.
Qed.

Lemma has_id_Num z contact : has_id (Num z) contact ↔ id contact = z.
Proof. unfold has_id; cbn. by rewrite bool_decide_eq_true. Qed.

Lemma has_id_NaN contact : ¬ has_id NaN contact.
Proof. unfold has_id; cbn. done. Qed.

Lemma has_id_iff i contact : has_id i contact ↔ Num (id contact) = i.
Proof.
  destruct i as [|z]; [split; [by intros ?%has_id_NaN|done]|].
  rewrite has_id_Num. split; congruence.
Qed.

Lemma strict_eq_false i contact :
  strict_eq (Num (id contact)) i = false ↔ ¬ has_id i contact.
Proof. unfold has_id. destruct (strict_eq _ _); split; done. Qed.

Lemma updateContact_found i updates st index contact :
  list_find (has_id i) (contacts st) = Some (index, contact) →
  contacts (updateContact i updates st).2
  = <[index := spread contact updates]> (contacts st).
Proof.
  intros Hfind. unfold updateContact. step.
  change (list_find _ (contacts st)) with (list_find (has_id i) (contacts st)).
  rewrite Hfind. step. apply save_contacts.
Qed.

Lemma updateContact_absent i updates st :
  list_find (has_id i) (contacts st) = None →
  updateContact i updates st = (Thrown (not_found i), st).
Proof.
  intros Hfind. unfold updateContact. step.
  change (list_find _ (contacts st)) with (list_find (has_id i) (contacts st)).
  by rewrite Hfind.
Qed.

Lemma filter_all {A} (P : A → Prop) `{∀ x, Decision (P x)} (l : list A) :
  Forall P l → filter P l = l.
Proof.
  induction 1 as [|x l HP _ IH]; [done|].
  rewrite filter_cons_True by done. by rewrite IH.
Qed.

Lemma deleteContact_filter i st :
  filter (λ contact, strict_eq (Num (id contact)) i = false) (contacts st)
  = filter (λ c, ¬ has_id i c) (contacts st).
Proof. apply list_filter_iff. intros c. apply strict_eq_false. Qed.

Lemma deleteContact_contacts i st :
  contacts (deleteContact i st).2 = filter (λ c, ¬ has_id i c) (contacts st).
Proof.
  unfold deleteContact. step. rewrite deleteContact_filter.
  case_bool_decide; step; [done|]. apply save_contacts.
Qed.

(** ** Fresh ids *)

Section FreshIds.
Implicit Types (cs : list Contact) (m : Z) (c newContact : Contact).

Lemma fold_max_lower cs m :
  m ≤ fold_left (λ max contact, Z.max max (id contact)) cs m.
Proof.
  revert m; induction cs as [|c cs IH]; intros m; cbn; [lia|].
  specialize (IH (Z.max m (id c))). lia.
Qed.

Lemma fold_max_upper cs m c :
  c ∈ cs → id c ≤ fold_left (λ max contact, Z.max max (id contact)) cs m.
Proof.
  revert m; induction cs as [|c' cs IH]; intros m Hin; [by apply elem_of_nil in Hin|].
  apply elem_of_cons in Hin as [->|Hin]; cbn.
  - pose proof (fold_max_lower cs (Z.max m (id c'))). lia.
  - by apply IH.
Qed.

Lemma fold_max_attained cs m :
  fold_left (λ max contact, Z.max max (id contact)) cs m = m
  ∨ ∃ c, c ∈ cs ∧ id c = fold_left (λ max contact, Z.max max (id contact)) cs m.
Proof.
  revert m; induction cs as [|c cs IH]; intros m; cbn; [by left|].
  destruct (IH (Z.max m (id c))) as [Heq|(c' & Hin & Heq)].
  - rewrite Heq. destruct (Z.max_spec m (id c)) as [[_ ->]|[_ ->]].
    + right. exists c. split; [apply list_elem_of_here|done].
    + by left.
  - right. exists c'. split; [by apply list_elem_of_further|done].
Qed.

Lemma maxId_greatest cs : greatest_id cs (maxId cs).
Proof.
  unfold greatest_id, maxId. split; [apply fold_max_lower|].
  split; [intros c; apply fold_max_upper|apply fold_max_attained].
Qed.

Lemma greatest_id_unique cs m m' : greatest_id cs m → greatest_id cs m' → m = m'.
Proof.
  intros (H0 & Hub & Hat) (H0' & Hub' & Hat').
  assert (m ≤ m') by (destruct Hat as [->|(c & Hc & <-)]; auto).
  assert (m' ≤ m) by (destruct Hat' as [->|(c & Hc & <-)]; auto).
  lia.
Qed.

Lemma maxId_fresh cs c : c ∈ cs → id c < maxId cs + 1.
Proof.
  intros Hin. destruct (maxId_greatest cs) as (_ & Hub & _).
  specialize (Hub c Hin). lia.
Qed.

Lemma reaches_generateNewId_true newContact cs :
  reaches_generateNewId newContact cs = true
  ↔ id newContact = 0 ∨ id newContact ∈ id <$> cs.
Proof.
  unfold reaches_generateNewId.
  rewrite orb_true_iff, bool_decide_eq_true, existsb_exists.
  apply or_iff_compat_l. rewrite list_elem_of_fmap. split.
  - intros (c & Hin & Heq). apply bool_decide_eq_true in Heq.
    exists c. split; [done|by apply list_elem_of_In].
  - intros (c & Heq & Hin).
    exists c. split; [by apply list_elem_of_In|by apply bool_decide_eq_true].
Qed.

Lemma to_double_exact z : Z.abs z ≤ 2 ^ 53 → to_double z = z.
Proof. intros H. unfold to_double. apply Z.leb_le in H. by rewrite H. Qed.


(** Below 2^53 the next id is one more than the greatest. *)
Lemma next_id_exact cs : exact_ids cs → to_double (maxId cs + 1) = maxId cs + 1.
Proof.
  unfold exact_ids. intros Hlt. apply to_double_exact.
  destruct (maxId_greatest cs) as (Hpos & _). lia.
Qed.


Lemma stored_exact newContact cs :
  exact_ids cs →
  stored newContact cs
  = if reaches_generateNewId newContact cs then with_id newContact (maxId cs + 1)
    else newContact.
Proof. intros Hex. unfold stored. by rewrite next_id_exact. Qed.

Lemma stored_id_fresh newContact cs :
  exact_ids cs → id (stored newContact cs) ∉ id <$> cs.
Proof.
  intros Hex. rewrite stored_exact by done.
  destruct (reaches_generateNewId newContact cs) eqn:E.
  - cbn. intros (c & Heq & Hin)%list_elem_of_fmap. apply maxId_fresh in Hin. lia.
  - intros Hin. assert (reaches_generateNewId newContact cs = true); [|congruence].
    apply reaches_generateNewId_true. by right.
Qed.
End FreshIds.

(** At 2^53 the addition rounds back: the next id is an id that is there. *)
Example generateNewId_at_the_limit :
  generateNewId at_the_limit = (Returned (2 ^ 53), at_the_limit).
Proof. reflexivity. Qed.

(** Scenario B: [addContact({id: 0, name: "Alice"})] on an empty collection
    stores [{id: 1, name: "Alice"}] and writes it to the file. *)
Example addContact_first :
  addContact {| id := 0; name := "Alice" |} (new_ContactsCollection quiet)
  = (Returned tt,
     {| contacts := [ {| id := 1; name := "Alice" |} ];
        env := {| file := Parsed (JArray [JObject [("id", JNumber 1);
                                                   ("name", JString "Alice")]]);
                  wfaults := [];
                  console := [Log "Contacts saved successfully."] |} |}).
Proof. reflexivity. Qed.

(** Scenario C: a second record that asks for the id [1] is stored with [2]. *)
Example addContact_duplicate :
  contacts (addContact {| id := 1; name := "Bob" |}
              (addContact {| id := 1; name := "Ana" |}
                 (new_ContactsCollection quiet)).2).2
  = [ {| id := 1; name := "Ana" |}; {| id := 2; name := "Bob" |} ].
Proof. reflexivity. Qed.

(** C2, as the specification words it, fails on a collection whose ids are
    all negative: with the single record [{id: -5}] in memory,
    [addContact({id: 0, name: "Bob"})] stores the id [1], whereas one more
    than the greatest existing id is [-4]. *)
Lemma addContact_negative_ids_counterexample :
  ¬ addContact_as_claimed {| id := 0; name := "Bob" |}
      {| contacts := [ {| id := -5; name := "Ana" |} ]; env := quiet |}.
Proof. unfold addContact_as_claimed. vm_compute. discriminate. Qed.

(** With exact ids, the record pushed has one more than the greatest of [0]
    and the existing ids when it needs an id, and the supplied id otherwise. *)
Lemma stored_decide newContact cs :
  exact_ids cs →
  stored newContact cs
  = if decide (id newContact = 0 ∨ id newContact ∈ id <$> cs)
    then with_id newContact (maxId cs + 1)
    else newContact.
Proof.
  intros Hex. rewrite stored_exact by done.
  pose proof (reaches_generateNewId_true newContact cs) as Hiff.
  destruct (reaches_generateNewId newContact cs); case_decide as Hd; try done.
  - destruct Hiff as [Hiff _]. destruct (Hd (Hiff eq_refl)).
  - destruct Hiff as [_ Hiff]. discriminate (Hiff Hd).
Qed.

(** The amended formula and the specification's agree on every collection
    that is empty or holds an id that is not negative. *)
Lemma claimed_max_spec c rest :
  (∀ x, x ∈ c :: rest → id x ≤ foldr (λ c' m, Z.max (id c') m) (id c) rest)
  ∧ (∃ x, x ∈ c :: rest ∧ id x = foldr (λ c' m, Z.max (id c') m) (id c) rest).
Proof.
  induction rest as [|d rest [IHub (x & Hx & IHat)]]; cbn.
  - split; [intros x ->%list_elem_of_singleton; lia|].
    exists c. split; [apply list_elem_of_here|done].
  - split.
    + intros y Hy. apply elem_of_cons in Hy as [->|Hy].
      * specialize (IHub c (list_elem_of_here _ _)). lia.
      * apply elem_of_cons in Hy as [->|Hy]; [lia|].
        specialize (IHub y (list_elem_of_further _ _ _ Hy)). lia.
    + destruct (Z.max_spec (id d) (foldr (λ c' m, Z.max (id c') m) (id c) rest))
        as [[_ ->]|[_ ->]].
      * exists x. split; [|done].
        apply elem_of_cons in Hx as [->|Hx]; [apply list_elem_of_here|].
        by do 2 apply list_elem_of_further.
      * exists d. split; [|done]. apply list_elem_of_further, list_elem_of_here.
Qed.

Lemma claimed_fresh_id_agrees cs :
  cs = [] ∨ (∃ c, c ∈ cs ∧ 0 ≤ id c) → claimed_fresh_id cs = maxId cs + 1.
Proof.
  intros Hcs. destruct cs as [|c rest]; [done|]. cbn [claimed_fresh_id]. f_equal.
  destruct Hcs as [?|(y & Hy & Hpos)]; [done|].
  destruct (claimed_max_spec c rest) as [Hub Hat].
  apply (greatest_id_unique (c :: rest)); [|apply maxId_greatest].
  split; [specialize (Hub y Hy); lia|]. split; [done|by right].
Qed.

(** ** Distinct ids *)

Lemma addContact_distinct newContact st :
  exact_ids (contacts st) →
  distinct_ids st → distinct_ids (addContact newContact st).2.
Proof.
  unfold distinct_ids, ids. intros Hex Hnd. rewrite addContact_contacts, fmap_app.
  apply NoDup_app. split; [done|]. split; [|apply NoDup_singleton].
  intros z Hin Heq%list_elem_of_singleton. subst z.
  by apply (stored_id_fresh newContact (contacts st)).
Qed.

Lemma NoDup_fmap_filter {A B} (f : A → B) (P : A → Prop) `{∀ x, Decision (P x)}
    (l : list A) :
  NoDup (f <$> l) → NoDup (f <$> filter P l).
Proof.
  induction l as [|x l IH]; [done|]. rewrite fmap_cons, NoDup_cons. intros [Hx Hl].
  destruct (decide (P x)).
  - rewrite filter_cons_True by done. rewrite fmap_cons, NoDup_cons.
    split; [|by apply IH].
    intros (y & Hy & Hin)%list_elem_of_fmap.
    apply list_elem_of_filter in Hin as [_ Hin].
    apply Hx. rewrite Hy. by apply list_elem_of_fmap_2.
  - rewrite filter_cons_False by done. by apply IH.
Qed.

Lemma NoDup_fmap_elem {A B} (f : A → B) (l : list A) (x y : A) :
  NoDup (f <$> l) → x ∈ l → y ∈ l → f x = f y → x = y.
Proof.
  induction l as [|z l IH]; [by intros _ ?%elem_of_nil|].
  rewrite fmap_cons, NoDup_cons. intros [Hz Hl] Hx Hy Heq.
  apply elem_of_cons in Hx as [->|Hx]; apply elem_of_cons in Hy as [->|Hy]; auto.
  - destruct Hz. rewrite Heq. by apply list_elem_of_fmap_2.
  - destruct Hz. rewrite <- Heq. by apply list_elem_of_fmap_2.
Qed.

Lemma deleteContact_distinct i st :
  distinct_ids st → distinct_ids (deleteContact i st).2.
Proof.
  unfold distinct_ids, ids. rewrite deleteContact_contacts. apply NoDup_fmap_filter.
Qed.

Lemma spread_keeps_id i updates contact :
  keeps_id i updates → has_id i contact → id (spread contact updates) = id contact.
Proof.
  unfold keeps_id, spread. destruct (id_opt updates) as [z|]; cbn; [|done].
  intros -> Hid. by apply has_id_Num in Hid.
Qed.

Lemma updateContact_ids i updates st :
  keeps_id i updates → ids (updateContact i updates st).2 = ids st.
Proof.
  intros Hkeep. unfold ids.
  destruct (list_find (has_id i) (contacts st)) as [[index contact]|] eqn:Hfind.
  - rewrite (updateContact_found _ _ _ _ _ Hfind), list_fmap_insert.
    apply list_find_Some in Hfind as (Hlook & Hid & _).
    rewrite (spread_keeps_id i) by done.
    apply list_insert_id. by rewrite list_lookup_fmap, Hlook.
  - by rewrite (updateContact_absent _ _ _ Hfind).
Qed.

Lemma updateContact_distinct i updates st :
  keeps_id i updates → distinct_ids st → distinct_ids (updateContact i updates st).2.
Proof. unfold distinct_ids. intros Hkeep. by rewrite updateContact_ids. Qed.

(** Every sequence of [addContact] (of new objects), [deleteContact] and
    id-preserving [updateContact] calls keeps the ids pairwise distinct,
    whether the calls return or throw, as long as the ids stay below 2^53. *)
Lemma run_distinct ks st :
  Forall id_preserving ks → exact_run ks st →
  distinct_ids st → distinct_ids (run ks st).
Proof.
  intros Hks. revert st.
  induction Hks as [|k ks Hk _ IH]; intros st Hex Hst; [done|].
  destruct Hex as [Hex Hrest]. cbn. apply IH; [done|]. destruct k; cbn in *;
    auto using addContact_distinct, updateContact_distinct, deleteContact_distinct.
Qed.

(** C1 fails on the code.  With [{id: 1}] and [{id: 2}] in memory (distinct
    ids), [updateContact(1, {id: 2})] returns normally and leaves two records
    with the id [2]: the merge [{ ...this.contacts[index], ...updates }]
    takes the id of [updates] unchecked, whereas [addContact] looks for the
    id among the stored ones before it keeps it. *)
Theorem updateContact_duplicates_id :
  distinct_ids two_contacts
  ∧ (updateContact (Num 1) {| id_opt := Some 2; name_opt := None |} two_contacts).1
    = Returned tt
  ∧ contacts (updateContact (Num 1) {| id_opt := Some 2; name_opt := None |}
                two_contacts).2
    = [ {| id := 2; name := "Ana" |}; {| id := 2; name := "Bob" |} ]
  ∧ ¬ distinct_ids
        (updateContact (Num 1) {| id_opt := Some 2; name_opt := None |}
           two_contacts).2.
Proof.
  split; [|split; [|split]].
  - unfold distinct_ids, ids; cbn. apply NoDup_cons. split; [|apply NoDup_singleton].
    intros Hin%list_elem_of_singleton. discriminate Hin.
  - reflexivity.
  - reflexivity.
  - unfold distinct_ids, ids.
    change (id <$> contacts _) with [2; 2]. intros Hnd.
    apply NoDup_cons in Hnd as [Hnotin _]. apply Hnotin, list_elem_of_here.
Qed.

(** ** Generated ids *)







(** ** Loading *)

(** C3. For every prior in-memory state: when the backing file is absent,
    [load] returns normally and the in-memory sequence is empty; when reading
    the file raises an error other than "no such file" (the file cannot be
    read, or does not parse), [load] fails with that very error and the
    in-memory sequence is the one from before. *)
Theorem load_absent_or_unreadable (st : state) :
  (file (env st) = Absent →
   ∃ st', load st = (Returned tt, st')
        ∧ contacts st' = [] ∧ file (env st') = Absent)
  ∧ (∀ e, file (env st) = Faulty e → code e ≠ Some "ENOENT"%string →
     ∃ st', load st = (Thrown e, st')
          ∧ contacts st' = contacts st ∧ file (env st') = file (env st)).
Proof.
  split.
  - intros Hfile. unfold load, try_catch, readFile. step. rewrite Hfile. cbn.
    eexists. split; [reflexivity|]. cbn. by rewrite Hfile.
  - intros e Hfile Hcode. unfold load, try_catch, readFile. step. rewrite Hfile.
    rewrite bool_decide_eq_false_2 by done. step.
    eexists. split; [reflexivity|]. done.
Qed.

Lemma load_absent_or_unreadable_witness :
  (∃ st', load sample_state = (Returned tt, st')
        ∧ contacts st' = [] ∧ file (env st') = Absent)
  ∧ (∃ st', load {| contacts := sample_contacts;
                    env := {| file := Faulty unreadable; wfaults := [];
                              console := [] |} |}
            = (Thrown unreadable, st')
          ∧ contacts st' = sample_contacts
          ∧ file (env st') = Faulty unreadable).
Proof.
  split.
  - apply (proj1 (load_absent_or_unreadable sample_state)). reflexivity.
  - apply (proj2 (load_absent_or_unreadable
                    {| contacts := sample_contacts;
                       env := {| file := Faulty unreadable; wfaults := [];
                                 console := [] |} |}) unreadable).
    + reflexivity.
    + discriminate.
Defined.

(** C10. For every backing file that parses to a JSON value other than an
    array, and every prior in-memory state, [load] returns normally and the
    in-memory sequence is empty; the file keeps its content. *)
Theorem load_non_array (st : state) (j : json) :
  file (env st) = Parsed j → (∀ items, j ≠ JArray items) →
  ∃ st', load st = (Returned tt, st')
       ∧ contacts st' = [] ∧ file (env st') = Parsed j.
Proof.
  intros Hfile Hj. unfold load, try_catch, readFile. step. rewrite Hfile.
  destruct j; try (eexists; split; [reflexivity|]; cbn; by rewrite ?Hfile).
  by destruct (Hj items).
Qed.

Lemma load_non_array_witness :
  ∃ st', load {| contacts := sample_contacts;
                 env := {| file := Parsed (JObject [("id", JNumber 1)]);
                           wfaults := []; console := [] |} |}
         = (Returned tt, st')
       ∧ contacts st' = []
       ∧ file (env st') = Parsed (JObject [("id", JNumber 1)]).
Proof.
  apply (load_non_array
           {| contacts := sample_contacts;
              env := {| file := Parsed (JObject [("id", JNumber 1)]);
                        wfaults := []; console := [] |} |}).
  - reflexivity.
  - discriminate.
Defined.

(** A [null] among the items makes [data.map] throw; the assignment to
    [this.contacts] is not reached. *)
Lemma map_items_null items : JNull ∈ items → ∃ e, map_items items = inl e.
Proof.
  induction items as [|item items IH]; [by intros ?%elem_of_nil|].
  intros Hin. cbn [map_items].
  destruct (property "id" item) as [e|i] eqn:Hi; [by exists e|].
  destruct (property "name" item) as [e|n] eqn:Hn; [by exists e|].
  apply elem_of_cons in Hin as [<-|Hin]; [discriminate|].
  destruct (IH Hin) as [e ->]. by exists e.
Qed.

Lemma load_null_item st items :
  file (env st) = Parsed (JArray items) → JNull ∈ items →
  ∃ e st', load st = (Thrown e, st') ∧ contacts st' = contacts st.
Proof.
  intros Hfile [e He]%map_items_null.
  unfold load, try_catch, readFile, array_of_data. step. rewrite Hfile, He.
  destruct (bool_decide (code e = Some "ENOENT"%string)) eqn:Hcode.
  - exfalso. apply bool_decide_eq_true in Hcode.
    clear Hfile. revert e He Hcode.
    induction items as [|item items IH]; intros e He Hcode; [done|].
    cbn [map_items] in He.
    destruct item; cbn in He; try (injection He as <-; discriminate);
      destruct (map_items items) as [e'|raws] eqn:Hrest;
      try discriminate; injection He as <-; by apply (IH e').
  - step. by eexists _, _.
Qed.

(** ** Absent ids *)

(** C4. For every collection and every id that no record of it has,
    [updateContact] and [deleteContact] both fail with the not-found error,
    and neither the in-memory sequence nor the world changes: the file is as
    before and no write has been attempted. *)
Theorem update_delete_absent_id (st : state) (i : number) (updates : PartialContact) :
  (∀ c, c ∈ contacts st → Num (id c) ≠ i) →
  updateContact i updates st = (Thrown (not_found i), st)
  ∧ deleteContact i st = (Thrown (not_found i), st).
Proof.
  intros Habsent.
  assert (Forall (λ c, ¬ has_id i c) (contacts st)) as Hall.
  { apply Forall_forall. intros c Hc Hid%has_id_iff. by apply (Habsent c). }
  split.
  - apply updateContact_absent. by apply list_find_None.
  - unfold deleteContact. step.
    rewrite deleteContact_filter, (filter_all _ _ Hall).
    rewrite bool_decide_eq_true_2 by done. by destruct st.
Qed.

Lemma update_delete_absent_id_witness :
  updateContact (Num 3) {| id_opt := None; name_opt := Some "Eve"%string |} sample_state
  = (Thrown (not_found (Num 3)), sample_state)
  ∧ deleteContact (Num 3) sample_state = (Thrown (not_found (Num 3)), sample_state).
Proof.
  apply (update_delete_absent_id sample_state (Num 3)).
  intros c Hc. apply elem_of_cons in Hc as [->|Hc]; [discriminate|].
  apply list_elem_of_singleton in Hc as ->. discriminate.
Defined.

(** Scenarios D and E. *)
Example updateContact_name :
  contacts (updateContact (Num 1) {| id_opt := None; name_opt := Some "Bob"%string |}
              {| contacts := [ {| id := 1; name := "Alice" |} ]; env := quiet |}).2
  = [ {| id := 1; name := "Bob" |} ].
Proof. reflexivity. Qed.

Example deleteContact_twice :
  deleteContact (Num 1)
    (deleteContact (Num 1)
       {| contacts := [ {| id := 1; name := "Alice" |} ]; env := quiet |}).2
  = (Thrown (not_found (Num 1)),
     {| contacts := [];
        env := {| file := Parsed (JArray []); wfaults := [];
                  console := [Log "Contacts saved successfully."] |} |}).
Proof. reflexivity. Qed.

(** ** Blank names *)

Section Blank.
Implicit Types (s t : string).

Lemma chars_rev_app s t :
  list_ascii_of_string (String.rev_app s t)
  = reverse (list_ascii_of_string s) ++ list_ascii_of_string t.
Proof.
  revert t. induction s as [|a s IH]; intros t;
    cbn [String.rev_app list_ascii_of_string]; [done|].
  rewrite IH, reverse_cons, <- app_assoc. done.
Qed.

Lemma chars_rev s :
  list_ascii_of_string (String.rev s) = reverse (list_ascii_of_string s).
Proof. unfold String.rev. by rewrite chars_rev_app, app_nil_r. Qed.

Lemma chars_nil s : list_ascii_of_string s = [] ↔ s = EmptyString.
Proof. destruct s; cbn; split; congruence. Qed.

Lemma rev_empty s : String.rev s = EmptyString ↔ s = EmptyString.
Proof.
  rewrite <- !chars_nil, chars_rev. split; intros H.
  - apply (f_equal reverse) in H. by rewrite reverse_involutive in H.
  - by rewrite H.
Qed.

Lemma blank_rev s : blank (String.rev s) ↔ blank s.
Proof. unfold blank. rewrite chars_rev. apply Forall_reverse. Qed.

Lemma trimStart_empty s : trimStart s = EmptyString ↔ blank s.
Proof.
  unfold blank. induction s as [|a s IH]; cbn.
  - split; [constructor|done].
  - destruct (is_space a) eqn:E.
    + rewrite IH, Forall_cons. split; [by split|by intros [_ ?]].
    + split; [done|]. intros [Ha _]%Forall_cons. congruence.
Qed.

Lemma trimStart_blank s : blank (trimStart s) → blank s.
Proof.
  unfold blank. induction s as [|a s IH]; cbn; [done|].
  destruct (is_space a) eqn:E; [|done].
  intros H. apply Forall_cons. split; [done|by apply IH].
Qed.

Lemma trimEnd_empty s : trimEnd s = EmptyString ↔ blank s.
Proof. unfold trimEnd. by rewrite rev_empty, trimStart_empty, blank_rev. Qed.

(** [s.trim() === ''] exactly when [s] is blank. *)
Lemma trim_empty s : trim s = EmptyString ↔ blank s.
Proof.
  unfold trim. rewrite trimEnd_empty. split; [apply trimStart_blank|].
  intros H. apply trimStart_empty in H. rewrite H. constructor.
Qed.
End Blank.

Example trim_sample : trim "  Ana Maria  " = "Ana Maria"%string.
Proof. reflexivity. Qed.

(** ** The dispatcher *)

(** C5. For every parameter bag whose [name] is missing, not a string, or
    blank after trimming, the [save] action fails with the validation error
    and no store operation has run: the in-memory sequence, the backing file
    and the schedule of writes are as before; the console has the one error
    line of the dispatcher. *)
Theorem save_rejects_invalid_name (options : ContactsControllerOptions) (st : state) :
  action options = VString "save" →
  refused_name (Params.name (params options)) →
  ∃ st', processOptions options st = (Thrown invalid_name, st')
       ∧ contacts st' = contacts st
       ∧ file (env st') = file (env st)
       ∧ wfaults (env st') = wfaults (env st)
       ∧ console (env st')
         = console (env st)
           ++ [ErrorLine "Save action requires valid 'name' in params." None].
Proof.
  intros Haction Hname. unfold processOptions. rewrite Haction.
  rewrite bool_decide_eq_false_2 by discriminate.
  rewrite bool_decide_eq_true_2 by done.
  assert (reject_name (A := reply) st
          = (Thrown invalid_name,
             (print (ErrorLine "Save action requires valid 'name' in params." None)
                st).2))
    as Hreject by done.
  destruct (Params.name (params options)) as [| | | |s];
    try (eexists; split; [exact Hreject|done]).
  cbn in Hname. apply trim_empty in Hname.
  rewrite bool_decide_eq_true_2 by done.
  eexists; split; [exact Hreject|done].
Qed.

(** Scenario F: a [save] request with the name ["  "]. *)
Lemma save_rejects_invalid_name_witness :
  ∃ st', processOptions
           {| action := VString "save";
              params := {| Params.id := VNumber (Num 3);
                           Params.name := VString "  " |} |}
           sample_state
         = (Thrown invalid_name, st')
       ∧ contacts st' = sample_contacts
       ∧ file (env st') = Absent
       ∧ wfaults (env st') = []
       ∧ console (env st')
         = [ErrorLine "Save action requires valid 'name' in params." None].
Proof.
  apply (save_rejects_invalid_name
           {| action := VString "save";
              params := {| Params.id := VNumber (Num 3);
                           Params.name := VString "  " |} |}
           sample_state).
  - reflexivity.
  - cbn. unfold blank. cbn. repeat constructor.
Defined.

(** C8. For every parameter bag, the [get] action with a numeric [id]
    returns a record of the collection whose id equals it, the only such
    record when the ids are distinct, or returns [undefined] without
    throwing when no record has that id; without a numeric [id] it returns
    the full listing.  The store and the file are left as they were. *)
Theorem get_action (options : ContactsControllerOptions) (st : state) :
  action options = VString "get" →
  match Params.id (params options) with
  | VNumber n =>
      ∃ st', contacts st' = contacts st ∧ file (env st') = file (env st)
           ∧ wfaults (env st') = wfaults (env st)
           ∧ ((∃ c, processOptions options st = (Returned (One c), st')
                  ∧ c ∈ contacts st ∧ Num (id c) = n
                  ∧ (distinct_ids st →
                     ∀ c', c' ∈ contacts st → Num (id c') = n → c' = c))
              ∨ (processOptions options st = (Returned Undefined, st')
                 ∧ ∀ c, c ∈ contacts st → Num (id c) ≠ n))
  | _ => processOptions options st = (Returned (Listing (contacts st)), st)
  end.
Proof.
  intros Haction. unfold processOptions. rewrite Haction.
  rewrite bool_decide_eq_true_2 by done.
  destruct (Params.id (params options)) as [| | |n|]; try reflexivity.
  unfold getOneById. step.
  destruct (find _ (contacts st)) as [c|] eqn:Hfind.
  - apply find_some in Hfind as [Hin Hid]. apply list_elem_of_In in Hin.
    apply (has_id_iff n c) in Hid.
    exists st. do 3 (split; [done|]). left. exists c. do 3 (split; [done|]).
    intros Hnd c' Hin' Hid'.
    apply (NoDup_fmap_elem id (contacts st)); try done. congruence.
  - exists (print (Warn ("Contact with ID " +:+ show n +:+ " not found.")) st).2.
    do 3 (split; [reflexivity|]). right. split; [reflexivity|].
    intros c Hin Hid. apply list_elem_of_In in Hin.
    pose proof (find_none _ _ Hfind c Hin) as Hno. cbv beta in Hno.
    apply has_id_iff in Hid. unfold has_id in Hid. by rewrite Hid in Hno.
Qed.

Lemma get_action_witness :
  ∃ st', contacts st' = sample_contacts ∧ file (env st') = Absent
       ∧ wfaults (env st') = []
       ∧ ((∃ c, processOptions
                  {| action := VString "get";
                     params := {| Params.id := VNumber (Num 1);
                                  Params.name := VUndefined |} |}
                  sample_state
                = (Returned (One c), st')
              ∧ c ∈ sample_contacts ∧ Num (id c) = Num 1
              ∧ (distinct_ids sample_state →
                 ∀ c', c' ∈ sample_contacts → Num (id c') = Num 1 → c' = c))
          ∨ (processOptions
               {| action := VString "get";
                  params := {| Params.id := VNumber (Num 1);
                               Params.name := VUndefined |} |}
               sample_state
             = (Returned Undefined, st')
             ∧ ∀ c, c ∈ sample_contacts → Num (id c) ≠ Num 1)).
Proof.
  apply (get_action
           {| action := VString "get";
              params := {| Params.id := VNumber (Num 1);
                           Params.name := VUndefined |} |}
           sample_state).
  reflexivity.
Defined.

Example get_found :
  processOptions
    {| action := VString "get";
       params := {| Params.id := VNumber (Num 1); Params.name := VUndefined |} |}
    sample_state
  = (Returned (One {| id := 1; name := "Ana" |}), sample_state).
Proof. reflexivity. Qed.

Example get_not_a_number :
  processOptions
    {| action := VString "get";
       params := {| Params.id := VNumber NaN; Params.name := VUndefined |} |}
    sample_state
  = (Returned Undefined,
     {| contacts := sample_contacts;
        env := {| file := Absent; wfaults := [];
                  console := [Warn "Contact with ID NaN not found."] |} |}).
Proof. reflexivity. Qed.

(** ** Round trip *)

Lemma map_items_json_of_contacts cs :
  map_items (json_of_contact <$> cs)
  = inr ((λ c, {| raw_id := Some (JNumber (id c));
                  raw_name := Some (JString (name c)) |}) <$> cs).
Proof.
  induction cs as [|c cs IH]; [done|].
  rewrite !fmap_cons. cbn [map_items]. rewrite IH. reflexivity.
Qed.

Lemma typed_raw cs :
  mapM typed ((λ c, {| raw_id := Some (JNumber (id c));
                       raw_name := Some (JString (name c)) |}) <$> cs)
  = Some cs.
Proof.
  induction cs as [|[i n] cs IH]; [done|].
  rewrite fmap_cons. cbn [mapM]. rewrite IH. reflexivity.
Qed.

Lemma array_of_data_json_of_contacts cs st :
  array_of_data (json_of_contacts cs) st = (Returned cs, st).
Proof.
  unfold array_of_data, json_of_contacts.
  by rewrite map_items_json_of_contacts, typed_raw.
Qed.

(** C6. For every sequence of records held by a store, when [save] has
    returned, [load] on a fresh store instance returns and its in-memory
    sequence equals the saved one, record by record and in the same order. *)
Theorem save_load_roundtrip (st st1 : state) :
  save st = (Returned tt, st1) →
  ∃ st2, load (new_ContactsCollection (env st1)) = (Returned tt, st2)
       ∧ contacts st2 = contacts st.
Proof.
  intros Hsave.
  destruct (save_cases st) as [(out & Heq & Hfile)|(e & out & Heq)];
    rewrite Heq in Hsave; [|discriminate].
  injection Hsave as <-. cbn [env].
  unfold load, try_catch, readFile, new_ContactsCollection. step. rewrite Hfile.
  rewrite array_of_data_json_of_contacts. step.
  eexists. split; [reflexivity|done].
Qed.

Lemma save_load_roundtrip_witness :
  ∃ st2, load (new_ContactsCollection (env (save sample_state).2))
         = (Returned tt, st2)
       ∧ contacts st2 = sample_contacts.
Proof.
  apply (save_load_roundtrip sample_state (save sample_state).2).
  reflexivity.
Defined.

(** ** The listing and its copies *)

Section Listing.
Implicit Types (this : Refs.ContactsCollection) (h : Refs.heap).

Lemma getAllContacts_copy this h a h' :
  Refs.getAllContacts this h = Some (a, h') →
  Refs.arrays h !! a = None
  ∧ a ≠ Refs.contacts this
  ∧ Refs.objects h' = Refs.objects h
  ∧ Refs.arrays h' = <[a := default [] (Refs.arrays h !! Refs.contacts this)]> (Refs.arrays h)
  ∧ Refs.listing a h' = Refs.listing (Refs.contacts this) h
  ∧ Refs.listing (Refs.contacts this) h' = Refs.listing (Refs.contacts this) h.
Proof.
  unfold Refs.getAllContacts, Refs.alloc_array, Refs.listing.
  destruct (Refs.arrays h !! Refs.contacts this) as [elems|] eqn:Hthis; [|done].
  cbn. intros [= <- <-]. cbn.
  assert (Refs.arrays h !! fresh (dom (Refs.arrays h)) = None) as Hfresh.
  { apply not_elem_of_dom, is_fresh. }
  assert (fresh (dom (Refs.arrays h)) ≠ Refs.contacts this) as Hne.
  { intros Heq. rewrite Heq in Hfresh. congruence. }
  rewrite lookup_insert_eq, lookup_insert_ne, Hthis by done. done.
Qed.

Lemma mutate_array_isolated a b elems h :
  a ≠ b → Refs.listing b (Refs.mutate_array a elems h) = Refs.listing b h.
Proof.
  intros Hne. unfold Refs.listing, Refs.mutate_array. cbn.
  by rewrite lookup_insert_ne.
Qed.

(** The value-level [getAllContacts] returns what the array returned at the
    level of references denotes. *)
Lemma getAllContacts_refines this h a h' st :
  Refs.listing (Refs.contacts this) h = Some (contacts st) →
  Refs.getAllContacts this h = Some (a, h') →
  getAllContacts st = (Returned (contacts st), st)
  ∧ Refs.listing a h' = Some (contacts st).
Proof.
  intros Hlist Hget. split; [done|].
  apply getAllContacts_copy in Hget as (_ & _ & _ & _ & -> & _). done.
Qed.

(** Two consecutive calls return two arrays, different from each other and
    from the store's, that denote the same sequence as the store's array; and
    whatever a caller then does to the slots of the first leaves the second
    and the store's as they were. *)
Lemma getAllContacts_twice this h first h1 second h2 :
  Refs.getAllContacts this h = Some (first, h1) →
  Refs.getAllContacts this h1 = Some (second, h2) →
  first ≠ second ∧ first ≠ Refs.contacts this ∧ second ≠ Refs.contacts this
  ∧ Refs.listing first h2 = Refs.listing (Refs.contacts this) h
  ∧ Refs.listing second h2 = Refs.listing (Refs.contacts this) h
  ∧ Refs.listing (Refs.contacts this) h2 = Refs.listing (Refs.contacts this) h
  ∧ ∀ elems,
      Refs.listing second (Refs.mutate_array first elems h2)
      = Refs.listing second h2
      ∧ Refs.listing (Refs.contacts this) (Refs.mutate_array first elems h2)
        = Refs.listing (Refs.contacts this) h2.
Proof.
  intros H1 H2.
  apply getAllContacts_copy in H1 as (Hf1 & Hn1 & Ho1 & Ha1 & Hl1 & Hi1).
  apply getAllContacts_copy in H2 as (Hf2 & Hn2 & Ho2 & Ha2 & Hl2 & Hi2).
  assert (first ≠ second) as Hne.
  { intros ->. rewrite Ha1, lookup_insert_eq in Hf2. discriminate. }
  split; [done|]. split; [done|]. split; [done|].
  split; [|split; [by rewrite Hl2|split; [by rewrite Hi2|]]].
  - rewrite <- Hl1. unfold Refs.listing. rewrite Ho2, Ha2.
    by rewrite lookup_insert_ne.
  - intros elems. split; by apply mutate_array_isolated.
Qed.
End Listing.

(** C7 fails on the code: the copy is shallow.  On a store that holds Alice,
    two calls return two arrays that both denote [[Alice]]; the caller's
    assignment [first[0].name = "Mallory"] then renames the record in the
    second array and in the store's own array as well, since the three
    arrays refer to one [Contact] object. *)
Theorem getAllContacts_shares_records :
  ∃ first h1 second h2 h3,
    Refs.getAllContacts Refs.sample_store Refs.sample_heap = Some (first, h1)
    ∧ Refs.getAllContacts Refs.sample_store h1 = Some (second, h2)
    ∧ Refs.listing first h2 = Some [Refs.alice]
    ∧ Refs.listing second h2 = Some [Refs.alice]
    ∧ Refs.listing (Refs.contacts Refs.sample_store) h2 = Some [Refs.alice]
    ∧ Refs.assign_name first 0 "Mallory" h2 = Some h3
    ∧ Refs.listing second h3 = Some [ {| id := 1; name := "Mallory" |} ]
    ∧ Refs.listing (Refs.contacts Refs.sample_store) h3
      = Some [ {| id := 1; name := "Mallory" |} ].
Proof.
  do 5 eexists. repeat split; vm_compute; reflexivity.
Qed.

(** * Further properties of the store *)

(** ** Each mutation ends in a [save] *)

Lemma save_on_fault st e leftover :
  head (wfaults (env st)) = Some (Some (e, leftover)) →
  ∃ out, save st = (Thrown e, {| contacts := contacts st; env := out |})
       ∧ file out = leftover
       ∧ console out
         = console (env st) ++ [ErrorLine "Error saving contacts file:" (Some e)].
Proof.
  unfold save, try_catch, writeFile. step.
  destruct (wfaults (env st)) as [|[[e' leftover']|] later]; cbn; [done| |done].
  intros [= -> ->]. eauto.
Qed.

Lemma save_no_fault st :
  head (wfaults (env st)) = None ∨ head (wfaults (env st)) = Some None →
  ∃ out, save st = (Returned tt, {| contacts := contacts st; env := out |})
       ∧ file out = Parsed (json_of_contacts (contacts st))
       ∧ console out = console (env st) ++ [Log "Contacts saved successfully."].
Proof.
  unfold save, try_catch, writeFile. step.
  destruct (wfaults (env st)) as [|[[e' leftover']|] later]; cbn; eauto.
  intros [?|?]; discriminate.
Qed.

Lemma addContact_is_save newContact st :
  ∃ mid, addContact newContact st = save mid
       ∧ contacts mid = contacts st ++ [stored newContact (contacts st)]
       ∧ file (env mid) = file (env st)
       ∧ wfaults (env mid) = wfaults (env st).
Proof.
  unfold addContact, push, generateNewId, stored, reaches_generateNewId, maxId. step.
  destruct (bool_decide (id newContact = 0)); cbn [orb].
  - step. eexists. split; [reflexivity|]. done.
  - destruct (existsb _ (contacts st)); step; (eexists; split; [reflexivity|]; done).
Qed.

Lemma updateContact_is_save i updates st index contact :
  list_find (has_id i) (contacts st) = Some (index, contact) →
  updateContact i updates st
  = save {| contacts := <[index := spread contact updates]> (contacts st);
            env := env st |}.
Proof.
  intros Hfind. unfold updateContact. step.
  change (list_find _ (contacts st)) with (list_find (has_id i) (contacts st)).
  rewrite Hfind. step. done.
Qed.

Lemma deleteContact_is_save i st :
  (∃ c, c ∈ contacts st ∧ has_id i c) →
  deleteContact i st
  = save {| contacts := filter (λ c, ¬ has_id i c) (contacts st); env := env st |}.
Proof.
  intros (c & Hin & Hid). unfold deleteContact. step. rewrite deleteContact_filter.
  rewrite bool_decide_eq_false_2; [done|].
  pose proof (length_filter_lt (λ c, ¬ has_id i c) (contacts st) c Hin) as Hlt.
  intros Heq. rewrite Heq in Hlt. apply (Nat.lt_irrefl (length (contacts st))).
  apply Hlt. by intros Hn.
Qed.

(** ** Saving and its failure *)

(** X1. [save] never changes the in-memory sequence.  When the write fails it
    prints one error line and throws the write error; when the write
    succeeds it prints one line, returns, and the file holds exactly the
    serialised in-memory sequence. *)
Theorem save_outcome (st : state) :
  contacts (save st).2 = contacts st
  ∧ (∀ e leftover, head (wfaults (env st)) = Some (Some (e, leftover)) →
       (save st).1 = Thrown e
       ∧ console (env (save st).2)
         = console (env st) ++ [ErrorLine "Error saving contacts file:" (Some e)])
  ∧ (head (wfaults (env st)) = None ∨ head (wfaults (env st)) = Some None →
       (save st).1 = Returned tt
       ∧ file (env (save st).2) = Parsed (json_of_contacts (contacts st))
       ∧ console (env (save st).2)
         = console (env st) ++ [Log "Contacts saved successfully."]).
Proof.
  split; [apply save_contacts|]. split.
  - intros e leftover He.
    destruct (save_on_fault st e leftover He) as (out & -> & _ & Hout). done.
  - intros Hok. destruct (save_no_fault st Hok) as (out & -> & Hfile & Hout). done.
Qed.

Lemma save_outcome_witness :
  ((save failing_state).1 = Thrown disk_full
   ∧ console (env (save failing_state).2)
     = console (env failing_state)
       ++ [ErrorLine "Error saving contacts file:" (Some disk_full)])
  ∧ ((save sample_state).1 = Returned tt
     ∧ file (env (save sample_state).2)
       = Parsed (json_of_contacts (contacts sample_state))
     ∧ console (env (save sample_state).2)
       = console (env sample_state) ++ [Log "Contacts saved successfully."]).
Proof.
  split.
  - apply (proj1 (proj2 (save_outcome failing_state)) disk_full (Faulty empty_file)).
    reflexivity.
  - apply (proj2 (proj2 (save_outcome sample_state))). left. reflexivity.
Defined.

(** X2. When the write fails, [addContact] throws the write error and does
    not take the record back: the in-memory sequence is one longer and ends
    with the record of the given name. *)
Theorem addContact_not_rolled_back newContact st e leftover :
  head (wfaults (env st)) = Some (Some (e, leftover)) →
  (addContact newContact st).1 = Thrown e
  ∧ length (contacts (addContact newContact st).2) = S (length (contacts st))
  ∧ ∃ pushed, last (contacts (addContact newContact st).2) = Some pushed
            ∧ name pushed = name newContact.
Proof.
  intros He. destruct (addContact_is_save newContact st) as (mid & -> & Hcs & Hfile & Hw).
  rewrite <- Hw in He. destruct (save_on_fault mid e leftover He) as (out & -> & _).
  cbn. split; [done|]. rewrite Hcs. split; [rewrite length_app; cbn; lia|].
  exists (stored newContact (contacts st)). split; [by rewrite last_snoc|].
  unfold stored. by destruct (reaches_generateNewId _ _).
Qed.

Lemma addContact_not_rolled_back_witness :
  (addContact {| id := 0; name := "Eve" |} failing_state).1 = Thrown disk_full
  ∧ length (contacts (addContact {| id := 0; name := "Eve" |} failing_state).2)
    = S (length (contacts failing_state))
  ∧ ∃ pushed, last (contacts (addContact {| id := 0; name := "Eve" |} failing_state).2)
              = Some pushed
            ∧ name pushed = name {| id := 0; name := "Eve" |}.
Proof.
  apply (addContact_not_rolled_back {| id := 0; name := "Eve" |} failing_state
           disk_full (Faulty empty_file)).
  reflexivity.
Defined.

(** ** Every mutation that returns is on disk *)

Lemma load_synced st cs :
  file (env st) = Parsed (json_of_contacts cs) →
  ∃ st', load st = (Returned tt, st') ∧ contacts st' = cs
       ∧ file (env st') = file (env st).
Proof.
  intros Hfile. unfold load, try_catch, readFile. step. rewrite Hfile.
  rewrite array_of_data_json_of_contacts. step.
  eexists. split; [reflexivity|]. cbn. by rewrite Hfile.
Qed.

Lemma perform_cases k st :
  (∃ e, perform k st = (Thrown e, st)) ∨ (∃ mid, perform k st = save mid).
Proof.
  destruct k as [newContact|i updates|i]; cbn [perform].
  - right. destruct (addContact_is_save newContact st) as (mid & -> & _). by exists mid.
  - destruct (list_find (has_id i) (contacts st)) as [[index contact]|] eqn:Hfind.
    + right. rewrite (updateContact_is_save _ _ _ _ _ Hfind). by eexists.
    + left. rewrite (updateContact_absent _ _ _ Hfind). by eexists.
  - destruct (decide (Exists (has_id i) (contacts st))) as [Hex|Hno].
    + right. rewrite deleteContact_is_save; [by eexists|].
      apply Exists_exists in Hex. exact Hex.
    + left. exists (not_found i).
      apply not_Exists_Forall in Hno; [|intros c; apply _].
      unfold deleteContact. step.
      rewrite deleteContact_filter, (filter_all _ _ Hno).
      rewrite bool_decide_eq_true_2 by done. by destruct st.
Qed.

(** X3. After any [addContact], [updateContact] or [deleteContact] that
    returns, the file holds the serialised in-memory sequence, and a fresh
    store instance that loads it gets that same sequence. *)
Theorem mutation_durable (k : call) (st st' : state) :
  perform k st = (Returned tt, st') →
  file (env st') = Parsed (json_of_contacts (contacts st'))
  ∧ ∃ st2, load (new_ContactsCollection (env st')) = (Returned tt, st2)
         ∧ contacts st2 = contacts st'.
Proof.
  intros Hk. destruct (perform_cases k st) as [[e He]|[mid Hmid]].
  { rewrite He in Hk. discriminate. }
  rewrite Hmid in Hk.
  destruct (save_cases mid) as [(out & Heq & Hfile)|(e & out & Heq)];
    rewrite Heq in Hk; [|discriminate].
  injection Hk as <-. cbn [env contacts]. split; [done|].
  destruct (load_synced (new_ContactsCollection out) (contacts mid) Hfile)
    as (st2 & Hload & Hcs & _).
  by exists st2.
Qed.

Lemma mutation_durable_witness :
  file (env (perform (DeleteContact (Num 2)) sample_state).2)
  = Parsed (json_of_contacts (contacts (perform (DeleteContact (Num 2)) sample_state).2))
  ∧ ∃ st2, load (new_ContactsCollection
                   (env (perform (DeleteContact (Num 2)) sample_state).2))
           = (Returned tt, st2)
         ∧ contacts st2 = contacts (perform (DeleteContact (Num 2)) sample_state).2.
Proof.
  apply (mutation_durable (DeleteContact (Num 2)) sample_state
           (perform (DeleteContact (Num 2)) sample_state).2).
  reflexivity.
Defined.

(** ** Updating a record that is there *)

(** X4. When [c], at index [k], is the first record with the id [i],
    [updateContact(i, updates)] puts the merge of [c] and [updates] at index
    [k] and leaves every other index and the length alone, later records
    with the same id included; it returns or throws as the write does. *)
Theorem updateContact_merges i updates st k c :
  contacts st !! k = Some c →
  Num (id c) = i →
  (∀ j c', (j < k)%nat → contacts st !! j = Some c' → Num (id c') ≠ i) →
  contacts (updateContact i updates st).2 !! k = Some (spread c updates)
  ∧ (∀ j, j ≠ k →
       contacts (updateContact i updates st).2 !! j = contacts st !! j)
  ∧ length (contacts (updateContact i updates st).2) = length (contacts st)
  ∧ (updateContact i updates st).1 = (save st).1.
Proof.
  intros Hk Hid Hfirst.
  assert (list_find (has_id i) (contacts st) = Some (k, c)) as Hfind.
  { apply list_find_Some. split; [done|]. split; [by apply has_id_iff|].
    intros j c' Hj Hlt Hc'%has_id_iff. by apply (Hfirst j c'). }
  rewrite (updateContact_is_save _ _ _ _ _ Hfind).
  rewrite save_contacts. cbn [contacts].
  split; [apply list_lookup_insert_eq; by apply lookup_lt_Some in Hk|].
  split; [intros j Hj; by apply list_lookup_insert_ne|].
  split; [apply length_insert|].
  unfold save, try_catch, writeFile. step.
  by destruct (wfaults (env st)) as [|[[e leftover]|] later].
Qed.

Lemma updateContact_merges_witness :
  contacts (updateContact (Num 1) {| id_opt := None; name_opt := Some "Eve"%string |}
              sample_state).2 !! 1%nat
  = Some (spread {| id := 1; name := "Ana" |}
            {| id_opt := None; name_opt := Some "Eve"%string |})
  ∧ (∀ j, j ≠ 1%nat →
       contacts (updateContact (Num 1)
                   {| id_opt := None; name_opt := Some "Eve"%string |}
                   sample_state).2 !! j
       = contacts sample_state !! j)
  ∧ length (contacts (updateContact (Num 1)
                        {| id_opt := None; name_opt := Some "Eve"%string |}
                        sample_state).2)
    = length (contacts sample_state)
  ∧ (updateContact (Num 1) {| id_opt := None; name_opt := Some "Eve"%string |}
       sample_state).1
    = (save sample_state).1.
Proof.
  apply (updateContact_merges (Num 1)
           {| id_opt := None; name_opt := Some "Eve"%string |}
           sample_state 1%nat {| id := 1; name := "Ana" |}).
  - reflexivity.
  - reflexivity.
  - intros j c' Hj Hc'. assert (j = 0%nat) as -> by lia.
    injection Hc' as <-. discriminate.
Defined.

(** ** Deleting a record that is there *)

(** X5. When some record has the id [i], [deleteContact(i)] removes every
    record with that id and keeps the others in their order, so the sequence
    gets shorter; it returns or throws as the write does. *)
Theorem deleteContact_removes i st :
  (∃ c, c ∈ contacts st ∧ Num (id c) = i) →
  contacts (deleteContact i st).2 = filter (λ c, Num (id c) ≠ i) (contacts st)
  ∧ (∀ c, c ∈ contacts (deleteContact i st).2 ↔ c ∈ contacts st ∧ Num (id c) ≠ i)
  ∧ (length (contacts (deleteContact i st).2) < length (contacts st))%nat
  ∧ (deleteContact i st).1 = (save st).1.
Proof.
  intros (c & Hin & Hid).
  assert (filter (λ c, ¬ has_id i c) (contacts st)
          = filter (λ c, Num (id c) ≠ i) (contacts st)) as Hfilter.
  { apply list_filter_iff. intros c'. by rewrite has_id_iff. }
  rewrite deleteContact_contacts, Hfilter.
  split; [done|]. split; [|split].
  - intros c'. rewrite list_elem_of_filter. tauto.
  - apply (length_filter_lt _ _ c Hin). by intros Hn.
  - rewrite deleteContact_is_save by (exists c; split; [done|by apply has_id_iff]).
    unfold save, try_catch, writeFile. step.
    by destruct (wfaults (env st)) as [|[[e leftover]|] later].
Qed.

Lemma deleteContact_removes_witness :
  contacts (deleteContact (Num 2) sample_state).2
  = filter (λ c, Num (id c) ≠ Num 2) (contacts sample_state)
  ∧ (∀ c, c ∈ contacts (deleteContact (Num 2) sample_state).2
          ↔ c ∈ contacts sample_state ∧ Num (id c) ≠ Num 2)
  ∧ (length (contacts (deleteContact (Num 2) sample_state).2)
     < length (contacts sample_state))%nat
  ∧ (deleteContact (Num 2) sample_state).1 = (save sample_state).1.
Proof.
  apply (deleteContact_removes (Num 2) sample_state).
  exists {| id := 2; name := "Bob" |}. split; [apply list_elem_of_here|reflexivity].
Defined.

(** X6. Deleting the same id a second time always fails with the not-found
    error and changes nothing, whatever the first call did. *)
Theorem deleteContact_again_not_found i st :
  deleteContact i (deleteContact i st).2
  = (Thrown (not_found i), (deleteContact i st).2).
Proof.
  assert (∀ c, c ∈ contacts (deleteContact i st).2 → Num (id c) ≠ i) as Hgone.
  { intros c. rewrite deleteContact_contacts, list_elem_of_filter, has_id_iff. tauto. }
  assert (Forall (λ c, ¬ has_id i c) (contacts (deleteContact i st).2)) as Hall.
  { apply Forall_forall. intros c Hc Hid%has_id_iff. by apply (Hgone c). }
  unfold deleteContact at 1. step.
  rewrite deleteContact_filter, (filter_all _ _ Hall).
  rewrite bool_decide_eq_true_2 by done. by destruct (deleteContact i st).2.
Qed.

(** ** Looking a record up after a mutation *)

Lemma find_first {A} (f : A → bool) (l : list A) (k : nat) (x : A) :
  l !! k = Some x → f x = true →
  (∀ j y, (j < k)%nat → l !! j = Some y → f y = false) →
  find f l = Some x.
Proof.
  revert k. induction l as [|z l IH]; intros k Hk Hx Hfirst; [done|].
  destruct k as [|k]; cbn in *.
  - injection Hk as ->. by rewrite Hx.
  - rewrite (Hfirst 0%nat z) by (done || lia).
    apply (IH k); [done|done|]. intros j y Hj Hy. apply (Hfirst (S j) y); [lia|done].
Qed.

Lemma find_Some_first {A} (f : A → bool) (l : list A) (x : A) :
  find f l = Some x →
  ∃ k, l !! k = Some x ∧ f x = true
     ∧ ∀ j y, (j < k)%nat → l !! j = Some y → f y = false.
Proof.
  induction l as [|z l IH]; [done|]. cbn. destruct (f z) eqn:Hz.
  - intros [= ->]. exists 0%nat. split; [done|]. split; [done|]. intros j y Hj. lia.
  - intros (k & Hk & Hx & Hfirst)%IH. exists (S k). split; [done|]. split; [done|].
    intros [|j] y Hj Hy; cbn in Hy; [by injection Hy as <-|].
    apply (Hfirst j y); [lia|done].
Qed.

Lemma find_none_all {A} (f : A → bool) (l : list A) :
  (∀ x, x ∈ l → f x = false) → find f l = None.
Proof.
  induction l as [|z l IH]; [done|]. intros Hall. cbn.
  rewrite (Hall z) by apply list_elem_of_here.
  apply IH. intros x Hx. apply Hall. by apply list_elem_of_further.
Qed.

(** X7. On a collection whose ids are below 2^53, the record that
    [addContact] has pushed, with the name it was given, is the one
    [getOneById] returns for its id, also when the write failed. *)
Theorem getOneById_after_addContact newContact st :
  exact_ids (contacts st) →
  ∃ pushed, last (contacts (addContact newContact st).2) = Some pushed
          ∧ name pushed = name newContact
          ∧ getOneById (Num (id pushed)) (addContact newContact st).2
            = (Returned (Some pushed), (addContact newContact st).2).
Proof.
  intros Hex. exists (stored newContact (contacts st)).
  split; [by rewrite addContact_contacts, last_snoc|].
  split; [unfold stored; by destruct (reaches_generateNewId _ _)|].
  unfold getOneById. step. rewrite addContact_contacts. f_equal. f_equal.
  apply (find_first _ _ (length (contacts st))).
  - by rewrite lookup_app_r, Nat.sub_diag.
  - cbn. by apply bool_decide_eq_true.
  - intros j y Hj Hy. rewrite lookup_app_l in Hy by done.
    cbn. apply bool_decide_eq_false. intros Heq.
    apply (stored_id_fresh newContact (contacts st) Hex). rewrite <- Heq.
    apply list_elem_of_fmap_2. by apply list_elem_of_lookup_2 in Hy.
Qed.

Lemma getOneById_after_addContact_witness :
  ∃ pushed, last (contacts (addContact {| id := 2; name := "Eve" |} sample_state).2)
            = Some pushed
          ∧ name pushed = name {| id := 2; name := "Eve" |}
          ∧ getOneById (Num (id pushed))
              (addContact {| id := 2; name := "Eve" |} sample_state).2
            = (Returned (Some pushed),
               (addContact {| id := 2; name := "Eve" |} sample_state).2).
Proof.
  apply (getOneById_after_addContact {| id := 2; name := "Eve" |} sample_state).
  exact eq_refl.
Defined.

(** X8. After [deleteContact(i)], returned or thrown, [getOneById(i)] finds
    nothing. *)
Theorem getOneById_after_deleteContact i st :
  getOneById i (deleteContact i st).2 = (Returned None, (deleteContact i st).2).
Proof.
  unfold getOneById. step. f_equal. f_equal. apply find_none_all.
  intros c. rewrite deleteContact_contacts, list_elem_of_filter.
  intros [Hn _]. by apply strict_eq_false.
Qed.

(** X9. When [getOneById(i)] returns [c] and the update leaves the id alone,
    [getOneById(i)] returns the merge of [c] and the update after
    [updateContact(i, updates)]. *)
Theorem getOneById_after_updateContact i updates st c :
  (getOneById i st).1 = Returned (Some c) →
  keeps_id i updates →
  (getOneById i (updateContact i updates st).2).1
  = Returned (Some (spread c updates)).
Proof.
  unfold getOneById. step. intros [= Hfind] Hkeep.
  apply find_Some_first in Hfind as (k & Hk & Hid & Hfirst).
  assert (list_find (has_id i) (contacts st) = Some (k, c)) as Hlf.
  { apply list_find_Some. split; [done|]. split; [done|].
    intros j y Hy Hj Hy'. specialize (Hfirst j y Hj Hy). unfold has_id in Hy'.
    change (strict_eq (Num (id y)) i = false) in Hfirst. congruence. }
  rewrite (updateContact_found _ _ _ _ _ Hlf). f_equal. f_equal.
  apply (find_first _ _ k).
  - apply list_lookup_insert_eq. by apply lookup_lt_Some in Hk.
  - rewrite (spread_keeps_id i) by done. done.
  - intros j y Hj Hy. rewrite list_lookup_insert_ne in Hy by lia.
    by apply (Hfirst j y).
Qed.

Lemma getOneById_after_updateContact_witness :
  (getOneById (Num 1)
     (updateContact (Num 1) {| id_opt := Some 1; name_opt := Some "Eve"%string |}
        sample_state).2).1
  = Returned (Some (spread {| id := 1; name := "Ana" |}
                      {| id_opt := Some 1; name_opt := Some "Eve"%string |})).
Proof.
  apply (getOneById_after_updateContact (Num 1)
           {| id_opt := Some 1; name_opt := Some "Eve"%string |} sample_state
           {| id := 1; name := "Ana" |}).
  - reflexivity.
  - reflexivity.
Defined.

(** ** The next id *)

(** X10. On a collection whose ids are below 2^53, [generateNewId] returns
    an id that is at least 1 and greater than the id of every record
    present, [1] on an empty collection, and changes nothing. *)
Theorem generateNewId_fresh (st : state) :
  exact_ids (contacts st) →
  ∃ g, generateNewId st = (Returned g, st)
     ∧ 1 ≤ g
     ∧ (∀ c, c ∈ contacts st → id c < g)
     ∧ (contacts st = [] → g = 1).
Proof.
  intros Hex. exists (maxId (contacts st) + 1).
  split; [by rewrite <- (next_id_exact _ Hex)|].
  destruct (maxId_greatest (contacts st)) as (Hpos & Hub & _).
  split; [lia|]. split; [intros c Hc; by apply maxId_fresh|].
  by intros ->.
Qed.

Lemma generateNewId_fresh_witness :
  ∃ g, generateNewId sample_state = (Returned g, sample_state)
     ∧ 1 ≤ g
     ∧ (∀ c, c ∈ contacts sample_state → id c < g)
     ∧ (contacts sample_state = [] → g = 1).
Proof.
  apply (generateNewId_fresh sample_state). exact eq_refl.
Defined.

(** X11. Ids vacated by a deletion are handed out again: when [c] has the
    greatest id, positive and below 2^53, the next id is [c.id + 1] before
    [deleteContact(c.id)] and at most [c.id] after. *)
Theorem generateNewId_after_deleting_greatest (st : state) (c : Contact) :
  c ∈ contacts st →
  (∀ c', c' ∈ contacts st → id c' ≤ id c) →
  0 < id c →
  id c < 2 ^ 53 →
  (generateNewId st).1 = Returned (id c + 1)
  ∧ ∃ g, (generateNewId (deleteContact (Num (id c)) st).2).1 = Returned g
       ∧ g ≤ id c.
Proof.
  intros Hin Hmax Hpos Hsmall. split.
  - change ((generateNewId st).1)
      with (Returned (to_double (maxId (contacts st) + 1))).
    assert (maxId (contacts st) = id c) as ->.
    { apply (greatest_id_unique (contacts st)); [apply maxId_greatest|].
      split; [lia|]. split; [done|]. right. by exists c. }
    rewrite to_double_exact by lia. done.
  - exists (to_double (maxId (contacts (deleteContact (Num (id c)) st).2) + 1)).
    split; [done|].
    assert (maxId (contacts (deleteContact (Num (id c)) st).2) < id c) as Hlt.
    { destruct (maxId_greatest (contacts (deleteContact (Num (id c)) st).2))
        as (_ & _ & [->|(c' & Hc' & <-)]); [lia|].
      rewrite deleteContact_contacts, list_elem_of_filter, has_id_Num in Hc'.
      destruct Hc' as [Hne Hc']. specialize (Hmax c' Hc'). lia. }
    destruct (maxId_greatest (contacts (deleteContact (Num (id c)) st).2))
      as (Hnonneg & _).
    rewrite to_double_exact by lia. lia.
Qed.

Lemma generateNewId_after_deleting_greatest_witness :
  (generateNewId sample_state).1 = Returned (id {| id := 2; name := "Bob" |} + 1)
  ∧ ∃ g, (generateNewId
            (deleteContact (Num (id {| id := 2; name := "Bob" |})) sample_state).2).1
         = Returned g
       ∧ g ≤ id {| id := 2; name := "Bob" |}.
Proof.
  apply (generateNewId_after_deleting_greatest sample_state {| id := 2; name := "Bob" |}).
  - apply list_elem_of_here.
  - intros c' Hc'. apply elem_of_cons in Hc' as [->|Hc']; [reflexivity|].
    apply list_elem_of_singleton in Hc' as ->. discriminate.
  - reflexivity.
  - exact eq_refl.
Defined.

(** ** Loading an array *)

Lemma map_items_described items cs :
  Forall2 describes items cs →
  ∃ raws, map_items items = inr raws ∧ mapM typed raws = Some cs.
Proof.
  induction 1 as [|item [i n] items cs (fields & -> & Hid & Hname) _ (raws & Hraws & Htyped)].
  { by exists []. }
  cbn in Hid, Hname. cbn [map_items property]. rewrite Hid, Hname, Hraws.
  eexists. split; [reflexivity|]. cbn. by rewrite Htyped.
Qed.

(** X12. When the file parses to an array of objects that each carry a
    numeric [id] and a string [name], in any key order and with any other
    keys, [load] returns and the in-memory sequence is the sequence of these
    contacts in the order of the file, in place of the prior one. *)
Theorem load_array (st : state) (items : list json) (cs : list Contact) :
  file (env st) = Parsed (JArray items) →
  Forall2 describes items cs →
  ∃ st', load st = (Returned tt, st')
       ∧ contacts st' = cs
       ∧ file (env st') = file (env st).
Proof.
  intros Hfile (raws & Hraws & Htyped)%map_items_described.
  unfold load, try_catch, readFile, array_of_data. step.
  rewrite Hfile, Hraws, Htyped. step.
  eexists. split; [reflexivity|]. cbn. by rewrite Hfile.
Qed.

Lemma load_array_witness :
  ∃ st', load {| contacts := sample_contacts;
                 env := {| file := Parsed hand_written; wfaults := [];
                           console := [] |} |}
         = (Returned tt, st')
       ∧ contacts st' = [ {| id := 7; name := "Ana" |}; {| id := 3; name := "Bob" |} ]
       ∧ file (env st')
         = file (env {| contacts := sample_contacts;
                        env := {| file := Parsed hand_written; wfaults := [];
                                  console := [] |} |}).
Proof.
  apply (load_array
           {| contacts := sample_contacts;
              env := {| file := Parsed hand_written; wfaults := [];
                        console := [] |} |}
           [ JObject [("name", JString "Ana"); ("id", JNumber 7)];
             JObject [("id", JNumber 3); ("name", JString "Bob"); ("phone", JNull)] ]).
  - reflexivity.
  - repeat constructor; eexists; (split; [reflexivity|]); split; reflexivity.
Defined.

Lemma map_items_error items e :
  map_items items = inl e → ename e = "TypeError"%string ∧ code e = None.
Proof.
  revert e. induction items as [|item items IH]; intros e He; [done|].
  cbn [map_items] in He.
  destruct item; cbn in He; try (injection He as <-; done);
    destruct (map_items items) as [e'|raws]; try discriminate;
    injection He as <-; by apply IH.
Qed.

(** X13. When the file parses to an array with a [null] in it, [load] throws
    a [TypeError] and the in-memory sequence is the prior one. *)
Theorem load_null_item_throws (st : state) (items : list json) :
  file (env st) = Parsed (JArray items) →
  JNull ∈ items →
  ∃ e st', load st = (Thrown e, st')
         ∧ ename e = "TypeError"%string
         ∧ contacts st' = contacts st
         ∧ file (env st') = file (env st).
Proof.
  intros Hfile [e He]%map_items_null.
  destruct (map_items_error items e He) as [Hname Hcode].
  unfold load, try_catch, readFile, array_of_data. step. rewrite Hfile, He.
  rewrite bool_decide_eq_false_2 by (rewrite Hcode; discriminate). step.
  eexists _, _. split; [reflexivity|]. cbn. by rewrite Hfile.
Qed.

Lemma load_null_item_throws_witness :
  ∃ e st', load {| contacts := sample_contacts;
                   env := {| file := Parsed (JArray [JNumber 4; JNull]);
                             wfaults := []; console := [] |} |}
           = (Thrown e, st')
         ∧ ename e = "TypeError"%string
         ∧ contacts st' = sample_contacts
         ∧ file (env st') = Parsed (JArray [JNumber 4; JNull]).
Proof.
  apply (load_null_item_throws
           {| contacts := sample_contacts;
              env := {| file := Parsed (JArray [JNumber 4; JNull]);
                        wfaults := []; console := [] |} |}
           [JNumber 4; JNull]).
  - reflexivity.
  - apply list_elem_of_further, list_elem_of_here.
Defined.

(** X14. [load] never writes: whatever the file is, the file and the pending
    writes are as before. *)
Theorem load_never_writes (st : state) :
  file (env (load st).2) = file (env st)
  ∧ wfaults (env (load st).2) = wfaults (env st).
Proof.
  unfold load, try_catch, readFile, array_of_data. step.
  destruct (file (env st)) as [|e|j] eqn:Hfile; cbn.
  - by rewrite ?Hfile.
  - destruct (bool_decide (code e = Some "ENOENT"%string)); cbn; by rewrite ?Hfile.
  - destruct j; cbn; try by rewrite ?Hfile.
    destruct (map_items items) as [e|raws]; cbn.
    + destruct (bool_decide (code e = Some "ENOENT"%string)); cbn; by rewrite ?Hfile.
    + destruct (mapM typed raws); cbn; by rewrite ?Hfile.
Qed.

(** ** The dispatcher's other paths *)

Lemma processOptions_save options st s :
  action options = VString "save" →
  Params.name (params options) = VString s →
  ¬ blank s →
  processOptions options st
  = match addContact {| id := requested_id (Params.id (params options)); name := s |} st with
    | (Returned _, st') =>
        (Returned Undefined,
         (print (Log "Contact saved successfully via controller.") st').2)
    | (Thrown e, st') => (Thrown e, st')
    | (IllTyped, st') => (IllTyped, st')
    end.
Proof.
  intros Haction Hname Hblank. unfold processOptions. rewrite Haction, Hname.
  rewrite bool_decide_eq_false_2 by discriminate.
  rewrite bool_decide_eq_true_2 by done.
  rewrite bool_decide_eq_false_2 by (by rewrite trim_empty).
  unfold requested_id. unfold mbind at 1, M_bind at 1.
  destruct (addContact _ st) as [[[]|e|] st']; done.
Qed.

(** X15. A [save] request with a name that is not blank appends one record
    with that name, not trimmed.  Its id is the requested one ([0] when
    [params.id] is missing, [NaN] or not a number) when that is not zero and
    not present, and what [generateNewId] returns otherwise.  The request
    returns [undefined] with the file in step when the write succeeds, and
    throws the write error when it fails. *)
Theorem save_action_stores options st s :
  action options = VString "save" →
  Params.name (params options) = VString s →
  ¬ blank s →
  (∃ pushed, contacts (processOptions options st).2 = contacts st ++ [pushed]
           ∧ name pushed = s
           ∧ if decide (requested_id (Params.id (params options)) = 0
                        ∨ requested_id (Params.id (params options)) ∈ ids st)
             then (generateNewId st).1 = Returned (id pushed)
             else id pushed = requested_id (Params.id (params options)))
  ∧ (head (wfaults (env st)) = None ∨ head (wfaults (env st)) = Some None →
     (processOptions options st).1 = Returned Undefined
     ∧ file (env (processOptions options st).2)
       = Parsed (json_of_contacts (contacts (processOptions options st).2)))
  ∧ (∀ e leftover, head (wfaults (env st)) = Some (Some (e, leftover)) →
     (processOptions options st).1 = Thrown e).
Proof.
  intros Haction Hname Hblank.
  rewrite (processOptions_save options st s) by done.
  destruct (addContact_is_save
              {| id := requested_id (Params.id (params options)); name := s |} st)
    as (mid & -> & Hcs & Hfile & Hw).
  rewrite <- Hw. split; [|split].
  - exists (stored {| id := requested_id (Params.id (params options)); name := s |}
              (contacts st)).
    split; [rewrite <- Hcs;
            destruct (save_cases mid) as [(out & -> & _)|(e & out & ->)]; done|].
    unfold stored.
    pose proof (reaches_generateNewId_true
                  {| id := requested_id (Params.id (params options)); name := s |}
                  (contacts st)) as Hiff.
    destruct (reaches_generateNewId _ (contacts st)); case_decide as Hd.
    + done.
    + destruct Hiff as [Hiff _]. destruct (Hd (Hiff eq_refl)).
    + destruct Hiff as [_ Hiff]. discriminate (Hiff Hd).
    + done.
  - intros Hok. destruct (save_no_fault mid Hok) as (out & -> & Hout & _). done.
  - intros e leftover He.
    destruct (save_on_fault mid e leftover He) as (out & -> & _). done.
Qed.

Lemma save_action_stores_witness :
  (∃ pushed, contacts (processOptions save_request sample_state).2
             = contacts sample_state ++ [pushed]
           ∧ name pushed = " Eve "%string
           ∧ if decide (requested_id (Params.id (params save_request)) = 0
                        ∨ requested_id (Params.id (params save_request))
                          ∈ ids sample_state)
             then (generateNewId sample_state).1 = Returned (id pushed)
             else id pushed = requested_id (Params.id (params save_request)))
  ∧ (head (wfaults (env sample_state)) = None
     ∨ head (wfaults (env sample_state)) = Some None →
     (processOptions save_request sample_state).1 = Returned Undefined
     ∧ file (env (processOptions save_request sample_state).2)
       = Parsed (json_of_contacts
                   (contacts (processOptions save_request sample_state).2)))
  ∧ (∀ e leftover,
       head (wfaults (env sample_state)) = Some (Some (e, leftover)) →
       (processOptions save_request sample_state).1 = Thrown e).
Proof.
  apply (save_action_stores save_request sample_state " Eve ").
  - reflexivity.
  - reflexivity.
  - unfold blank. cbn. intros Hall. apply Forall_cons in Hall as [_ Hall].
    apply Forall_cons in Hall as [Hfalse _]. discriminate Hfalse.
Defined.

(** X16. Any action other than ["get"] and ["save"] returns [undefined] and
    leaves the store, the file and the pending writes alone; one warning is
    printed. *)
Theorem unsupported_action_noop (options : ContactsControllerOptions) (st : state) :
  action options ≠ VString "get" →
  action options ≠ VString "save" →
  ∃ st', processOptions options st = (Returned Undefined, st')
       ∧ contacts st' = contacts st
       ∧ file (env st') = file (env st)
       ∧ wfaults (env st') = wfaults (env st)
       ∧ console (env st')
         = console (env st)
           ++ [Warn "No valid action specified or action not supported."].
Proof.
  intros Hget Hsave. unfold processOptions.
  rewrite !bool_decide_eq_false_2 by done.
  eexists. split; [reflexivity|]. done.
Qed.

Lemma unsupported_action_noop_witness :
  ∃ st', processOptions
           {| action := VUndefined;
              params := {| Params.id := VNumber (Num 1); Params.name := VString "Eve" |} |}
           sample_state
         = (Returned Undefined, st')
       ∧ contacts st' = contacts sample_state
       ∧ file (env st') = file (env sample_state)
       ∧ wfaults (env st') = wfaults (env sample_state)
       ∧ console (env st')
         = console (env sample_state)
           ++ [Warn "No valid action specified or action not supported."].
Proof.
  apply (unsupported_action_noop
           {| action := VUndefined;
              params := {| Params.id := VNumber (Num 1); Params.name := VString "Eve" |} |}
           sample_state).
  - discriminate.
  - discriminate.
Defined.

(** ** Start-up *)

Lemma init_after_load st st1 :
  load st = (Returned tt, st1) →
  init st
  = (Returned tt,
     (print (Log "ContactsController initialized and data loaded.") st1).2).
Proof. intros Hload. unfold init. step. by rewrite Hload. Qed.

(** X17. With no backing file, [init] returns, and the listing request then
    returns the empty list. *)
Theorem init_missing_file_lists_nothing (st : state) :
  file (env st) = Absent →
  ∃ st1, init st = (Returned tt, st1)
       ∧ contacts st1 = []
       ∧ processOptions list_request st1 = (Returned (Listing []), st1).
Proof.
  intros Hfile.
  assert (∃ st0, load st = (Returned tt, st0) ∧ contacts st0 = []) as (st0 & Hload & Hcs).
  { unfold load, try_catch, readFile. step. rewrite Hfile. cbn.
    eexists. split; [reflexivity|done]. }
  eexists. split; [apply (init_after_load _ _ Hload)|].
  split; [done|]. unfold processOptions, list_request, getAllContacts. step.
  cbn. by rewrite Hcs.
Qed.

Lemma init_missing_file_lists_nothing_witness :
  ∃ st1, init sample_state = (Returned tt, st1)
       ∧ contacts st1 = []
       ∧ processOptions list_request st1 = (Returned (Listing []), st1).
Proof.
  apply (init_missing_file_lists_nothing sample_state). reflexivity.
Defined.

(** X18. When reading the file raises an error other than "no such file",
    [init] throws that error, the in-memory sequence is the prior one, and
    only the error line of [load] is printed, not the initialised line. *)
Theorem init_propagates_read_error (st : state) (e : exn) :
  file (env st) = Faulty e →
  code e ≠ Some "ENOENT"%string →
  ∃ st', init st = (Thrown e, st')
       ∧ contacts st' = contacts st
       ∧ console (env st')
         = console (env st) ++ [ErrorLine "Error loading contacts file:" (Some e)].
Proof.
  intros Hfile Hcode. unfold init, load, try_catch, readFile. step. rewrite Hfile.
  rewrite bool_decide_eq_false_2 by done. step.
  eexists. split; [reflexivity|]. done.
Qed.

Lemma init_propagates_read_error_witness :
  ∃ st', init {| contacts := sample_contacts;
                 env := {| file := Faulty unreadable; wfaults := []; console := [] |} |}
         = (Thrown unreadable, st')
       ∧ contacts st' = sample_contacts
       ∧ console (env st')
         = [] ++ [ErrorLine "Error loading contacts file:" (Some unreadable)].
Proof.
  apply (init_propagates_read_error
           {| contacts := sample_contacts;
              env := {| file := Faulty unreadable; wfaults := []; console := [] |} |}
           unreadable).
  - reflexivity.
  - discriminate.
Defined.

(** X19. After a [save] request that returned, the in-memory sequence is
    the prior one with one record appended that carries the requested name;
    a new store instance that is initialised in the resulting world then
    answers the listing request with that same sequence. *)
Theorem saved_contact_survives_restart options st st' :
  action options = VString "save" →
  processOptions options st = (Returned Undefined, st') →
  (∃ pushed, contacts st' = contacts st ++ [pushed]
           ∧ Params.name (params options) = VString (name pushed))
  ∧ ∃ st1, init (new_ContactsCollection (env st')) = (Returned tt, st1)
         ∧ processOptions list_request st1 = (Returned (Listing (contacts st')), st1).
Proof.
  intros Haction Hrun.
  destruct (Params.name (params options)) as [| | | |s] eqn:Hname;
    try (unfold processOptions in Hrun; rewrite Haction, Hname in Hrun; discriminate).
  destruct (decide (trim s = EmptyString)) as [Htrim|Htrim].
  { unfold processOptions in Hrun. rewrite Haction, Hname in Hrun.
    rewrite (bool_decide_eq_false_2 (VString "save" = VString "get")) in Hrun
      by discriminate.
    rewrite (bool_decide_eq_true_2 (VString "save" = VString "save")) in Hrun by done.
    rewrite (bool_decide_eq_true_2 (trim s = EmptyString)) in Hrun by done.
    discriminate. }
  rewrite (processOptions_save options st s) in Hrun by (by rewrite <- ?trim_empty).
  destruct (addContact_is_save
              {| id := requested_id (Params.id (params options)); name := s |} st)
    as (mid & Hadd & Hcs & _).
  rewrite Hadd in Hrun.
  destruct (save_cases mid) as [(out & Heq & Hfile)|(e & out & Heq)];
    rewrite Heq in Hrun; [|discriminate].
  injection Hrun as <-. cbn [contacts env file]. split.
  - eexists. split; [exact Hcs|]. unfold stored.
    by destruct (reaches_generateNewId _ _).
  - destruct (load_synced (new_ContactsCollection
                             (env (print (Log "Contact saved successfully via controller.")
                                     {| contacts := contacts mid; env := out |}).2))
                (contacts mid) Hfile) as (st0 & Hload & Hcs0 & _).
    eexists. split; [apply (init_after_load _ _ Hload)|].
    unfold processOptions, list_request, getAllContacts. step. cbn. by rewrite Hcs0.
Qed.

Lemma saved_contact_survives_restart_witness :
  (∃ pushed, contacts (processOptions
                         {| action := VString "save";
                            params := {| Params.id := VUndefined;
                                         Params.name := VString "Eve" |} |}
                         sample_state).2
             = contacts sample_state ++ [pushed]
           ∧ Params.name (params {| action := VString "save";
                                    params := {| Params.id := VUndefined;
                                                 Params.name := VString "Eve" |} |})
             = VString (name pushed))
  ∧ ∃ st1, init (new_ContactsCollection
                   (env (processOptions
                           {| action := VString "save";
                              params := {| Params.id := VUndefined;
                                           Params.name := VString "Eve" |} |}
                           sample_state).2))
           = (Returned tt, st1)
         ∧ processOptions list_request st1
           = (Returned (Listing (contacts (processOptions
                                             {| action := VString "save";
                                                params := {| Params.id := VUndefined;
                                                             Params.name := VString "Eve" |} |}
                                             sample_state).2)), st1).
Proof.
  apply (saved_contact_survives_restart
           {| action := VString "save";
              params := {| Params.id := VUndefined; Params.name := VString "Eve" |} |}
           sample_state).
  - reflexivity.
  - reflexivity.
Defined.

(** ** The looked-up record is the stored object *)

(** X22. With references, the object that [getOneById] returns is an element
    of the store's own array with the id asked for: whatever a caller
    assigns to its fields shows at that index of the store's sequence. *)
Theorem getOneById_returns_stored_object this i h r elems :
  Refs.arrays h !! Refs.contacts this = Some elems →
  Refs.getOneById this i h = Some r →
  ∃ k c, elems !! k = Some r
       ∧ Refs.objects h !! r = Some c
       ∧ Num (id c) = i
       ∧ ∀ c' cs',
           Refs.listing (Refs.contacts this) (Refs.mutate_record r c' h) = Some cs' →
           cs' !! k = Some c'.
Proof.
  intros Harr. unfold Refs.getOneById. rewrite Harr. cbn.
  intros (k & Hk & Hid & _)%find_Some_first.
  destruct (Refs.objects h !! r) as [c|] eqn:Hobj; [|done].
  exists k, c. split; [done|]. split; [done|].
  split; [by apply (has_id_iff i c)|].
  intros c' cs'. unfold Refs.listing, Refs.mutate_record. cbn. rewrite Harr. cbn.
  intros Hall%mapM_Some.
  destruct (Forall2_lookup_l _ _ _ _ _ Hall Hk) as (y & Hy & Hlook).
  rewrite lookup_insert_eq in Hlook. congruence.
Qed.

Lemma getOneById_returns_stored_object_witness :
  ∃ k c, [1%positive] !! k = Some 1%positive
       ∧ Refs.objects Refs.sample_heap !! 1%positive = Some c
       ∧ Num (id c) = Num 1
       ∧ ∀ c' cs',
           Refs.listing (Refs.contacts Refs.sample_store)
             (Refs.mutate_record 1%positive c' Refs.sample_heap) = Some cs' →
           cs' !! k = Some c'.
Proof.
  apply (getOneById_returns_stored_object Refs.sample_store (Num 1) Refs.sample_heap
           1%positive [1%positive]).
  - reflexivity.
  - reflexivity.
Defined.

(** The reference found denotes the record the value-level [getOneById]
    returns. *)
Lemma getOneById_refines this i h st :
  Refs.listing (Refs.contacts this) h = Some (contacts st) →
  getOneById i st
  = (Returned (Refs.getOneById this i h ≫= (Refs.objects h !!.)), st).
Proof.
  unfold Refs.listing, Refs.getOneById, getOneById. step.
  destruct (Refs.arrays h !! Refs.contacts this) as [elems|]; [|done].
  cbn [mbind option_bind].
  intros Hall%mapM_Some. f_equal. f_equal.
  induction Hall as [|r c elems cs Hr _ IH]; [done|].
  cbn [find]. rewrite Hr.
  destruct (strict_eq (Num (id c)) i); [cbn [mbind option_bind]; by rewrite Hr|done].
Qed.

Lemma getOneById_refines_witness :
  getOneById (Num 1) {| contacts := [Refs.alice]; env := quiet |}
  = (Returned (Refs.getOneById Refs.sample_store (Num 1) Refs.sample_heap
               ≫= (Refs.objects Refs.sample_heap !!.)),
     {| contacts := [Refs.alice]; env := quiet |}).
Proof.
  apply (getOneById_refines Refs.sample_store (Num 1) Refs.sample_heap
           {| contacts := [Refs.alice]; env := quiet |}).
  reflexivity.
Defined.

(** ** Witnesses of the invariants above *)

Lemma getAllContacts_twice_witness :
  Refs.after_first_copy.1 ≠ Refs.after_second_copy.1
  ∧ Refs.after_first_copy.1 ≠ Refs.contacts Refs.sample_store
  ∧ Refs.after_second_copy.1 ≠ Refs.contacts Refs.sample_store
  ∧ Refs.listing Refs.after_first_copy.1 Refs.after_second_copy.2
    = Refs.listing (Refs.contacts Refs.sample_store) Refs.sample_heap
  ∧ Refs.listing Refs.after_second_copy.1 Refs.after_second_copy.2
    = Refs.listing (Refs.contacts Refs.sample_store) Refs.sample_heap
  ∧ Refs.listing (Refs.contacts Refs.sample_store) Refs.after_second_copy.2
    = Refs.listing (Refs.contacts Refs.sample_store) Refs.sample_heap
  ∧ ∀ elems,
      Refs.listing Refs.after_second_copy.1
        (Refs.mutate_array Refs.after_first_copy.1 elems Refs.after_second_copy.2)
      = Refs.listing Refs.after_second_copy.1 Refs.after_second_copy.2
      ∧ Refs.listing (Refs.contacts Refs.sample_store)
          (Refs.mutate_array Refs.after_first_copy.1 elems Refs.after_second_copy.2)
        = Refs.listing (Refs.contacts Refs.sample_store) Refs.after_second_copy.2.
Proof.
  apply (getAllContacts_twice Refs.sample_store Refs.sample_heap
           Refs.after_first_copy.1 Refs.after_first_copy.2
           Refs.after_second_copy.1 Refs.after_second_copy.2).
  - reflexivity.
  - reflexivity.
Defined.

(** ** Loading and saving again *)

(** X23. Loading an array of contact objects and saving it again rewrites the
    file in the store's own shape: each object keeps its [id] and [name], in
    that order, and loses every other key. *)
Theorem load_then_save_normalises (st st1 st2 : state) (items : list json)
    (cs : list Contact) :
  file (env st) = Parsed (JArray items) →
  Forall2 describes items cs →
  load st = (Returned tt, st1) →
  save st1 = (Returned tt, st2) →
  file (env st2) = Parsed (JArray (json_of_contact <$> cs)).
Proof.
  intros Hfile Hitems Hload Hsave.
  destruct (map_items_described items cs Hitems) as (raws & Hraws & Htyped).
  assert (contacts st1 = cs) as Hcs.
  { unfold load, try_catch, readFile, array_of_data in Hload. step.
    rewrite Hfile, Hraws, Htyped in Hload. step. by injection Hload as <-. }
  destruct (save_cases st1) as [(out & Heq & Hout)|(e & out & Heq)];
    rewrite Heq in Hsave; [|discriminate].
  injection Hsave as <-. cbn [env]. by rewrite Hout, Hcs.
Qed.

Lemma load_then_save_normalises_witness :
  file (env (save (load {| contacts := [];
                           env := {| file := Parsed hand_written; wfaults := [];
                                     console := [] |} |}).2).2)
  = Parsed (JArray (json_of_contact
                      <$> [ {| id := 7; name := "Ana" |}; {| id := 3; name := "Bob" |} ])).
Proof.
  apply (load_then_save_normalises
           {| contacts := [];
              env := {| file := Parsed hand_written; wfaults := []; console := [] |} |}
           (load {| contacts := [];
                    env := {| file := Parsed hand_written; wfaults := [];
                              console := [] |} |}).2
           (save (load {| contacts := [];
                          env := {| file := Parsed hand_written; wfaults := [];
                                    console := [] |} |}).2).2
           [ JObject [("name", JString "Ana"); ("id", JNumber 7)];
             JObject [("id", JNumber 3); ("name", JString "Bob"); ("phone", JNull)] ]).
  - reflexivity.
  - repeat constructor; eexists; (split; [reflexivity|]); split; reflexivity.
  - reflexivity.
  - reflexivity.
Defined.

(** ** Adding a record by reference *)

Section AddByReference.
Implicit Types (this : Refs.ContactsCollection) (h : Refs.heap) (w : world).

Lemma addContact_run newContact st :
  addContact newContact st
  = save {| contacts := contacts st ++ [stored newContact (contacts st)];
            env := warned newContact (contacts st) (env st) |}.
Proof.
  unfold addContact, push, generateNewId, stored, reaches_generateNewId, maxId,
    warned, say. step.
  destruct (bool_decide (id newContact = 0)); cbn [orb].
  - step. by destruct st as [cs []].
  - destruct (existsb _ (contacts st)); step; by destruct st as [cs []].
Qed.

Lemma deref_insert_fresh (objs : gmap positive Contact) (r : positive) (x : Contact)
    (elems : list positive) (cs : list Contact) :
  r ∉ elems →
  mapM (λ r', objs !! r') elems = Some cs →
  mapM (λ r', <[r := x]> objs !! r') elems = Some cs.
Proof.
  intros Hfresh Hall%mapM_Some. apply mapM_Some.
  induction Hall as [|r' c elems cs Hr' _ IH]; [constructor|].
  apply not_elem_of_cons in Hfresh as [Hne Hfresh].
  constructor; [by rewrite lookup_insert_ne|by apply IH].
Qed.

Lemma deref_snoc (objs : gmap positive Contact) (r : positive) (x : Contact)
    (elems : list positive) (cs : list Contact) :
  mapM (λ r', objs !! r') elems = Some cs →
  objs !! r = Some x →
  mapM (λ r', objs !! r') (elems ++ [r]) = Some (cs ++ [x]).
Proof.
  intros Hall%mapM_Some Hr. apply mapM_Some.
  apply Forall2_app; [done|]. by repeat constructor.
Qed.

Lemma listing_mutate_record this h r x elems cs :
  Refs.arrays h !! Refs.contacts this = Some elems →
  mapM (λ r', Refs.objects h !! r') elems = Some cs →
  r ∉ elems →
  Refs.listing (Refs.contacts this)
    (Refs.mutate_array (Refs.contacts this) (elems ++ [r]) (Refs.mutate_record r x h))
  = Some (cs ++ [x]).
Proof.
  intros Harr Hcs Hfresh. unfold Refs.listing, Refs.mutate_array, Refs.mutate_record.
  cbn [Refs.arrays Refs.objects]. rewrite lookup_insert_eq. cbn [mbind option_bind].
  apply deref_snoc; [by apply deref_insert_fresh|apply lookup_insert_eq].
Qed.

Lemma listing_push this h r x elems cs :
  Refs.arrays h !! Refs.contacts this = Some elems →
  mapM (λ r', Refs.objects h !! r') elems = Some cs →
  Refs.objects h !! r = Some x →
  Refs.listing (Refs.contacts this)
    (Refs.mutate_array (Refs.contacts this) (elems ++ [r]) h)
  = Some (cs ++ [x]).
Proof.
  intros Harr Hcs Hr. unfold Refs.listing, Refs.mutate_array.
  cbn [Refs.arrays Refs.objects]. rewrite lookup_insert_eq. cbn [mbind option_bind].
  by apply deref_snoc.
Qed.

(** A call with a new object does what the value-level [addContact] says. *)
Lemma addContact_refines this newContact h w elems cs c :
  Refs.arrays h !! Refs.contacts this = Some elems →
  mapM (λ r, Refs.objects h !! r) elems = Some cs →
  Refs.objects h !! newContact = Some c →
  newContact ∉ elems →
  ∃ h', Refs.addContact this newContact h w
        = Some ((addContact c {| contacts := cs; env := w |}).1, h',
                env (addContact c {| contacts := cs; env := w |}).2)
      ∧ Refs.listing (Refs.contacts this) h'
        = Some (contacts (addContact c {| contacts := cs; env := w |}).2)
      ∧ Refs.objects h' !! newContact = Some (stored c cs).
Proof.
  intros Harr Hcs Hc Hfresh.
  rewrite addContact_run, save_contacts. cbn [contacts env].
  assert (Refs.listing (Refs.contacts this) h = Some cs) as Hlist.
  { unfold Refs.listing. rewrite Harr. done. }
  assert (Refs.generateNewId this h = Some (to_double (maxId cs + 1))) as Hgen.
  { unfold Refs.generateNewId. by rewrite Hlist. }
  assert (∀ i, Refs.assign_id newContact i h
               = Some (Refs.mutate_record newContact (with_id c i) h)) as Hassign.
  { intros i. unfold Refs.assign_id. by rewrite Hc. }
  assert (∀ x, Refs.push this newContact (Refs.mutate_record newContact x h)
               = Some (Refs.mutate_array (Refs.contacts this) (elems ++ [newContact])
                         (Refs.mutate_record newContact x h))) as Hpush1.
  { intros x. unfold Refs.push. cbn [Refs.mutate_record Refs.arrays]. by rewrite Harr. }
  assert (Refs.push this newContact h
          = Some (Refs.mutate_array (Refs.contacts this) (elems ++ [newContact]) h))
    as Hpush0.
  { unfold Refs.push. by rewrite Harr. }
  unfold Refs.addContact. rewrite Hc, Hlist. cbn [mbind option_bind].
  unfold stored, reaches_generateNewId, warned.
  destruct (bool_decide (id c = 0)) eqn:Hzero; cbn [orb].
  - rewrite Hgen. cbn [mbind option_bind]. rewrite Hassign. cbn [mbind option_bind].
    rewrite Hpush1. cbn [mbind option_bind]. unfold Refs.save.
    rewrite (listing_mutate_record this h newContact _ elems cs Harr Hcs Hfresh).
    cbn [mbind option_bind]. eexists. split; [reflexivity|].
    split; [by apply listing_mutate_record|]. cbn. apply lookup_insert_eq.
  - destruct (existsb _ cs) eqn:Hdup.
    + rewrite Hgen. cbn [mbind option_bind]. rewrite Hassign. cbn [mbind option_bind].
      rewrite Hpush1. cbn [mbind option_bind]. unfold Refs.save.
      rewrite (listing_mutate_record this h newContact _ elems cs Harr Hcs Hfresh).
      cbn [mbind option_bind]. eexists. split; [reflexivity|].
      split; [by apply listing_mutate_record|]. cbn. apply lookup_insert_eq.
    + cbn [mbind option_bind]. rewrite Hpush0. cbn [mbind option_bind]. unfold Refs.save.
      rewrite (listing_push this h newContact c elems cs Harr Hcs Hc).
      cbn [mbind option_bind]. eexists. split; [reflexivity|].
      split; [by apply (listing_push this h newContact c elems cs)|]. exact Hc.
Qed.

(** C2 (amended). For every collection state and every record object passed
    to [addContact] that is not already an element of the collection, when
    the greatest [m] of [0] and the existing ids is below 2^53: if the
    record's id is zero, or equals an id already present, the stored record
    receives the id [m + 1] (so [1] for an empty collection); otherwise it
    keeps the supplied id.  The record is appended at the end of the
    sequence, whose other records are unchanged. *)
Theorem addContact_stores this newContact h w elems cs c :
  Refs.arrays h !! Refs.contacts this = Some elems →
  mapM (λ r, Refs.objects h !! r) elems = Some cs →
  Refs.objects h !! newContact = Some c →
  newContact ∉ elems →
  exact_ids cs →
  ∃ m res h' w',
    greatest_id cs m
    ∧ Refs.addContact this newContact h w = Some (res, h', w')
    ∧ Refs.listing (Refs.contacts this) h'
      = Some (cs ++ [if decide (id c = 0 ∨ id c ∈ id <$> cs)
                     then with_id c (m + 1)
                     else c]).
Proof.
  intros Harr Hcs Hc Hfresh Hex.
  destruct (addContact_refines this newContact h w elems cs c Harr Hcs Hc Hfresh)
    as (h' & Hrun & Hlist & _).
  exists (maxId cs). eexists _, h', _. split; [apply maxId_greatest|].
  split; [exact Hrun|].
  rewrite Hlist, addContact_contacts. cbn [contacts]. by rewrite stored_decide.
Qed.

Lemma addContact_stores_witness :
  ∃ m res h' w',
    greatest_id [Refs.alice] m
    ∧ Refs.addContact Refs.sample_store 2%positive Refs.with_bob quiet
      = Some (res, h', w')
    ∧ Refs.listing (Refs.contacts Refs.sample_store) h'
      = Some ([Refs.alice]
              ++ [if decide (id {| id := 1; name := "Bob" |} = 0
                             ∨ id {| id := 1; name := "Bob" |} ∈ id <$> [Refs.alice])
                  then with_id {| id := 1; name := "Bob" |} (m + 1)
                  else {| id := 1; name := "Bob" |}]).
Proof.
  apply (addContact_stores Refs.sample_store 2%positive Refs.with_bob quiet
           [1%positive] [Refs.alice] {| id := 1; name := "Bob" |}).
  - reflexivity.
  - reflexivity.
  - reflexivity.
  - intros Hin%list_elem_of_singleton. discriminate Hin.
  - exact eq_refl.
Defined.

(** X20. Adding a record object that is not already an element keeps the ids
    of the collection pairwise distinct, when they are below 2^53. *)
Theorem addContact_keeps_distinct_ids this newContact h w elems cs c :
  Refs.arrays h !! Refs.contacts this = Some elems →
  mapM (λ r, Refs.objects h !! r) elems = Some cs →
  Refs.objects h !! newContact = Some c →
  newContact ∉ elems →
  exact_ids cs →
  NoDup (id <$> cs) →
  ∃ res h' w' cs',
    Refs.addContact this newContact h w = Some (res, h', w')
    ∧ Refs.listing (Refs.contacts this) h' = Some cs'
    ∧ NoDup (id <$> cs').
Proof.
  intros Harr Hcs Hc Hfresh Hex Hnd.
  destruct (addContact_refines this newContact h w elems cs c Harr Hcs Hc Hfresh)
    as (h' & Hrun & Hlist & _).
  eexists _, h', _, _. split; [exact Hrun|]. split; [exact Hlist|].
  apply (addContact_distinct c {| contacts := cs; env := w |}); done.
Qed.

Lemma addContact_keeps_distinct_ids_witness :
  ∃ res h' w' cs',
    Refs.addContact Refs.sample_store 2%positive Refs.with_bob quiet
    = Some (res, h', w')
    ∧ Refs.listing (Refs.contacts Refs.sample_store) h' = Some cs'
    ∧ NoDup (id <$> cs').
Proof.
  apply (addContact_keeps_distinct_ids Refs.sample_store 2%positive Refs.with_bob quiet
           [1%positive] [Refs.alice] {| id := 1; name := "Bob" |}).
  - reflexivity.
  - reflexivity.
  - reflexivity.
  - intros Hin%list_elem_of_singleton. discriminate Hin.
  - exact eq_refl.
  - apply NoDup_singleton.
Defined.

Lemma deref_total (objs : gmap positive Contact) (elems : list positive) :
  (∀ r, r ∈ elems → is_Some (objs !! r)) →
  ∃ cs, mapM (λ r, objs !! r) elems = Some cs
      ∧ ∀ k r, elems !! k = Some r → cs !! k = objs !! r.
Proof.
  intros Hall.
  assert (is_Some (mapM (λ r, objs !! r) elems)) as [cs Hcs].
  { apply mapM_is_Some, Forall_forall. intros r Hr. by apply Hall. }
  exists cs. split; [done|]. intros k r Hk. apply mapM_Some in Hcs.
  destruct (Forall2_lookup_l _ _ _ _ _ Hcs Hk) as (y & Hy & Hlook). congruence.
Qed.

(** X24. Adding an object that is already an element of the collection
    leaves it there twice: the sequence is one longer and two of its
    records, being one object, have the same id. *)
Theorem addContact_of_stored_object this newContact h w elems cs :
  Refs.arrays h !! Refs.contacts this = Some elems →
  mapM (λ r, Refs.objects h !! r) elems = Some cs →
  newContact ∈ elems →
  ∃ res h' w' cs',
    Refs.addContact this newContact h w = Some (res, h', w')
    ∧ Refs.listing (Refs.contacts this) h' = Some cs'
    ∧ length cs' = S (length cs)
    ∧ ¬ NoDup (id <$> cs').
Proof.
  intros Harr Hcs Hin.
  assert (Refs.listing (Refs.contacts this) h = Some cs) as Hlist.
  { unfold Refs.listing. rewrite Harr. done. }
  apply list_elem_of_lookup in Hin as [k Hk].
  assert (∃ c, Refs.objects h !! newContact = Some c) as [c Hc].
  { apply mapM_Some in Hcs.
    destruct (Forall2_lookup_l _ _ _ _ _ Hcs Hk) as (y & _ & Hy). by exists y. }
  assert (∀ h1 : Refs.heap,
            Refs.arrays h1 = Refs.arrays h →
            (∀ r, r ∈ elems → is_Some (Refs.objects h1 !! r)) →
            ∀ w1, ∃ res h' w' cs',
              (h2 ← Refs.push this newContact h1;
               '(res, w2) ← Refs.save this h2 w1;
               Some (res, h2, w2)) = Some (res, h', w')
              ∧ Refs.listing (Refs.contacts this) h' = Some cs'
              ∧ length cs' = S (length cs)
              ∧ ¬ NoDup (id <$> cs')) as Hrest.
  { intros h1 Harrs Hsome w1.
    destruct (deref_total (Refs.objects h1) elems Hsome) as (cs1 & Hcs1 & Hlook).
    destruct (Hsome newContact) as [x Hx].
    { apply list_elem_of_lookup. by exists k. }
    assert (Refs.listing (Refs.contacts this)
              (Refs.mutate_array (Refs.contacts this) (elems ++ [newContact]) h1)
            = Some (cs1 ++ [x])) as Hlist1.
    { apply (listing_push this h1 newContact x elems cs1); [by rewrite Harrs|done|done]. }
    unfold Refs.push, Refs.save. rewrite Harrs, Harr. cbn [mbind option_bind].
    rewrite Hlist1. cbn [mbind option_bind].
    eexists _, _, _, _. split; [reflexivity|]. split; [exact Hlist1|].
    assert (length cs1 = length cs) as Hlen.
    { pose proof (Forall2_length _ _ _ (proj1 (mapM_Some _ _ _) Hcs1)) as H1.
      pose proof (Forall2_length _ _ _ (proj1 (mapM_Some _ _ _) Hcs)) as H2.
      congruence. }
    split; [rewrite length_app; cbn; lia|].
    rewrite fmap_app. intros Hnd. apply NoDup_app in Hnd as (_ & Hdisj & _).
    apply (Hdisj (id x)); [|apply list_elem_of_here].
    apply list_elem_of_fmap_2. apply list_elem_of_lookup. exists k.
    by rewrite (Hlook k newContact Hk). }
  assert (∀ x, ∀ r, r ∈ elems →
            is_Some (Refs.objects (Refs.mutate_record newContact x h) !! r)) as Hkeep.
  { intros x r Hr. cbn. destruct (decide (newContact = r)) as [->|Hne].
    - rewrite lookup_insert_eq. by eexists.
    - rewrite lookup_insert_ne by done. apply mapM_Some in Hcs.
      apply list_elem_of_lookup in Hr as [j Hj].
      destruct (Forall2_lookup_l _ _ _ _ _ Hcs Hj) as (y & _ & Hy). by exists y. }
  unfold Refs.addContact, Refs.generateNewId, Refs.assign_id.
  rewrite Hc, Hlist. cbn [mbind option_bind].
  destruct (bool_decide (id c = 0)); cbn [mbind option_bind].
  - apply Hrest; [done|apply Hkeep].
  - destruct (existsb _ cs); cbn [mbind option_bind].
    + apply Hrest; [done|apply Hkeep].
    + apply Hrest; [done|]. intros r Hr. apply mapM_Some in Hcs.
      apply list_elem_of_lookup in Hr as [j Hj].
      destruct (Forall2_lookup_l _ _ _ _ _ Hcs Hj) as (y & _ & Hy). by exists y.
Qed.

Lemma addContact_of_stored_object_witness :
  ∃ res h' w' cs',
    Refs.addContact Refs.sample_store 1%positive Refs.sample_heap quiet
    = Some (res, h', w')
    ∧ Refs.listing (Refs.contacts Refs.sample_store) h' = Some cs'
    ∧ length cs' = S (length [Refs.alice])
    ∧ ¬ NoDup (id <$> cs').
Proof.
  apply (addContact_of_stored_object Refs.sample_store 1%positive Refs.sample_heap quiet
           [1%positive] [Refs.alice]).
  - reflexivity.
  - reflexivity.
  - apply list_elem_of_here.
Defined.

(** The same object added twice: both elements end with the id [2]. *)
Example addContact_twice_same_object :
  (Refs.addContact Refs.sample_store 1%positive Refs.sample_heap quiet
   ≫= λ '(_, h', _), Refs.listing (Refs.contacts Refs.sample_store) h')
  = Some [ {| id := 2; name := "Alice" |}; {| id := 2; name := "Alice" |} ].
Proof. vm_compute. reflexivity. Qed.
End AddByReference.
